(** * Residue distance maps: [evcouplings/compare/distances.py]

    A shallow embedding of the minimum atom distance kernel [_distances]
    and of the [DistanceMap] class that wraps its result with
    identifier-keyed lookup and persistence.

    - numpy's [float64] is Rocq's primitive binary64 [float]; the
      comparison lemmas come from the [SpecFloat] specification;
    - Python exceptions are the [Raise] branch of [result];
    - a numpy 2D array is a list of rows, a dict is a [gmap], a pandas
      table is a list of named columns over an index. *)

From Stdlib Require Import ZArith List Floats Lia Ascii String DecimalString.
From Stdlib Require DecimalPos DecimalZ.
From stdpp Require Import base option list gmap strings sorting.

Local Open Scope string_scope.
Local Open Scope list_scope.
Local Open Scope Z_scope.

(** ** Python outcomes *)

Inductive exn : Type :=
  | KeyError (msg : string)
  | IndexError
  | AttributeError
  | TypeError
  | ValueError
  | FileNotFoundError
  | NotImplementedError.

Inductive result (A : Type) : Type :=
  | Ok (a : A)
  | Raise (e : exn).

Arguments Ok {A} a.
Arguments Raise {A} e.

#[global] Instance result_ret : MRet result := @Ok.
#[global] Instance result_bind : MBind result := λ A B f m,
  match m with
  | Ok a => f a
  | Raise e => Raise e
  end.

(** [for x in l: s = body(x, s)], stopping at the first exception. *)
Fixpoint for_each {A S : Type} (body : A → S → result S) (l : list A) (s : S)
    : result S :=
  match l with
  | [] => Ok s
  | a :: l' => s' ← body a s; for_each body l' s'
  end.

(** [range(a, b)] over Python integers. *)
Definition range (a b : Z) : list Z :=
  (λ k : nat, a + Z.of_nat k) <$> seq 0 (Z.to_nat (b - a)).

(** [l[k]]: a negative index counts from the end; outside the array the
    interpreter raises [IndexError] (the jit-compiled kernel does not
    check, so such a call has no defined result there). *)
Definition getitem {A : Type} (l : list A) (k : Z) : result A :=
  let k' := if k <? 0 then k + Z.of_nat (length l) else k in
  if k' <? 0 then Raise IndexError
  else match l !! Z.to_nat k' with
       | Some a => Ok a
       | None => Raise IndexError
       end.

(** ** The distance kernel *)

Definition coord : Type := float * float * float.

(** An [N x 2] integer array: first and last (inclusive) atom index. *)
Abbreviation atom_ranges := (list (Z * Z)).

Abbreviation matrix := (list (list float)).

Definition LARGE_DIST : float := 1000000%float.

(** [np.zeros((n, m))] *)
Definition zeros (n m : nat) : matrix := replicate n (replicate m 0%float).

(** [d[i, j]] *)
Definition mget (d : matrix) (i j : nat) : result float :=
  match d !! i with
  | Some row =>
      match row !! j with
      | Some v => Ok v
      | None => Raise IndexError
      end
  | None => Raise IndexError
  end.

(** [d[i, j] = v] *)
Definition mset (d : matrix) (i j : nat) (v : float) : result matrix :=
  match d !! i with
  | Some row =>
      if decide (j < length row)%nat then Ok (<[i := <[j := v]> row]> d)
      else Raise IndexError
  | None => Raise IndexError
  end.

(** The builtin [min(a, b)]: the second argument wins only when it is
    strictly smaller, so a not-a-number [b] never replaces [a]. *)
Definition pymin (a b : float) : float :=
  if (b <? a)%float then b else a.

(** [np.sqrt(np.sum((p - q) ** 2))]: componentwise difference, square
    (the product of the difference with itself), left-to-right sum
    starting from zero, square root. *)
Definition cur_dist (p q : coord) : float :=
  let '(x1, y1, z1) := p in
  let '(x2, y2, z2) := q in
  let dx := (x1 - x2)%float in
  let dy := (y1 - y2)%float in
  let dz := (z1 - z2)%float in
  PrimFloat.sqrt (0 + dx * dx + dy * dy + dz * dz)%float.

(** The two atom loops of one residue pair, from [min_dist = LARGE_DIST]
    to the value stored in the cell. *)
Definition atom_pair_loop (coords_i coords_j : list coord)
    (range_i range_j : Z * Z) : result float :=
  for_each (λ a_i min_dist,
    for_each (λ a_j min_dist,
      p ← getitem coords_i a_i;
      q ← getitem coords_j a_j;
      mret (pymin min_dist (cur_dist p q)))
      (range range_j.1 (range_j.2 + 1)) min_dist)
    (range range_i.1 (range_i.2 + 1)) LARGE_DIST.

(** The body of the residue-pair loop. *)
Definition cell_step (residues_i : atom_ranges) (coords_i : list coord)
    (residues_j : atom_ranges) (coords_j : list coord) (symmetric : bool)
    (i j : nat) (dists : matrix) : result matrix :=
  if symmetric && (j <=? i)%nat then
    v ← mget dists j i;
    mset dists i j v
  else
    range_i ← getitem residues_i (Z.of_nat i);
    range_j ← getitem residues_j (Z.of_nat j);
    min_dist ← atom_pair_loop coords_i coords_j range_i range_j;
    mset dists i j min_dist.

Definition _distances (residues_i : atom_ranges) (coords_i : list coord)
    (residues_j : atom_ranges) (coords_j : list coord) (symmetric : bool)
    : result matrix :=
  let N_i := length residues_i in
  let N_j := length residues_j in
  for_each (λ i dists,
    for_each (λ j dists,
      cell_step residues_i coords_i residues_j coords_j symmetric i j dists)
      (seq 0 N_j) dists)
    (seq 0 N_i) (zeros N_i N_j).

(** *** What the kernel is meant to compute

    The atoms of a residue are the slice of the coordinate array between
    the first and the last index of its range; the distances of a residue
    pair are those of all atom pairs, in the order the loops visit them. *)

Definition atoms (coords : list coord) (r : Z * Z) : list coord :=
  take (Z.to_nat (r.2 + 1 - r.1)) (drop (Z.to_nat r.1) coords).

Definition pair_dists (coords_i coords_j : list coord) (range_i range_j : Z * Z)
    : list float :=
  p ← atoms coords_i range_i; q ← atoms coords_j range_j; [cur_dist p q].

(** [v] is a least element of [l]: it occurs in [l] and is below every
    element of [l] that is a number. *)
Definition is_least (v : float) (l : list float) : Prop :=
  v ∈ l ∧ ∀ x, x ∈ l → PrimFloat.is_nan x = false → (v <=? x)%float = true.

(** Every range lies inside the coordinate array. *)
Definition in_bounds (residues : atom_ranges) (coords : list coord) : Prop :=
  Forall (λ r, 0 ≤ r.1 ∧ r.2 < Z.of_nat (length coords)) residues.

Definition in_boundsb (residues : atom_ranges) (coords : list coord) : bool :=
  forallb (λ r, (0 <=? r.1) && (r.2 <? Z.of_nat (length coords))) residues.

(** The spec's symmetric two-residue chain. *)
Definition scenario_coords : list coord :=
  [(0, 0, 0); (1, 0, 0); (3, 0, 0)]%float.
Definition scenario_ranges : atom_ranges := [(0, 1); (2, 2)].

(** Two single-atom residues two million units apart. *)
Definition far_coords_i : list coord := [(0, 0, 0)]%float.
Definition far_coords_j : list coord := [(2000000, 0, 0)]%float.
Definition far_ranges : atom_ranges := [(0, 0)].

(** The running minimum over all atom pairs of a residue pair. *)
Definition min_atom_dist (coords_i coords_j : list coord)
    (range_i range_j : Z * Z) : float :=
  fold_left pymin (pair_dists coords_i coords_j range_i range_j) LARGE_DIST.

(** [entry i j] is the value the kernel leaves in cell [(i, j)]: above the
    diagonal of a symmetric map, and everywhere in an asymmetric one, the
    running minimum of the atom loops; on the diagonal of a symmetric map
    the initial zero; below it the cell mirrored across the diagonal. *)
Definition entry (residues_i : atom_ranges) (coords_i : list coord)
    (residues_j : atom_ranges) (coords_j : list coord) (symmetric : bool)
    (i j : nat) : float :=
  if symmetric && (j <=? i)%nat then
    if (j =? i)%nat then 0%float
    else min_atom_dist coords_i coords_j (residues_i !!! j) (residues_j !!! i)
  else min_atom_dist coords_i coords_j (residues_i !!! i) (residues_j !!! j).

(** The loop invariant: an [N_i x N_j] array whose cells before [(i, j)]
    in row-major order hold their final value [F], the others the
    initial zero. *)
Definition filled (N_i N_j : nat) (F : nat → nat → float) (i j : nat)
    (d : matrix) : Prop :=
  ∀ i' j', mget d i' j' =
    if decide (i' < N_i ∧ j' < N_j)%nat then
      Ok (if decide (i' < i ∨ (i' = i ∧ j' < j))%nat then F i' j' else 0%float)
    else Raise IndexError.

(** The value the atom loops leave for the residue pair [(i, j)] when
    they return, whatever the ranges. *)
Definition looped (residues_i : atom_ranges) (coords_i : list coord)
    (residues_j : atom_ranges) (coords_j : list coord) (i j : nat) : float :=
  match atom_pair_loop coords_i coords_j (residues_i !!! i) (residues_j !!! j)
  with
  | Ok v => v
  | Raise _ => 0%float
  end.

(** The content of cell [(i, j)] of a returned matrix: as [entry], with
    the outcome of the atom loops for the computed cells. *)
Definition stored (residues_i : atom_ranges) (coords_i : list coord)
    (residues_j : atom_ranges) (coords_j : list coord) (symmetric : bool)
    (i j : nat) : float :=
  if symmetric && (j <=? i)%nat then
    if (j =? i)%nat then 0%float
    else looped residues_i coords_i residues_j coords_j j i
  else looped residues_i coords_i residues_j coords_j i j.

(** Decoded not-a-number. *)
Definition sf_is_nan (x : spec_float) : bool :=
  match x with S754_nan => true | _ => false end.

(** ** Residue tables

    A table cell is a Python string, a Python integer or the missing
    value; identifiers passed to a lookup are strings or integers. *)

Inductive pyval : Type :=
  | PStr (s : string)
  | PInt (z : Z)
  | PNaN.

#[global] Instance pyval_eq_dec : EqDecision pyval.
Proof. solve_decision. Defined.

#[global] Instance pyval_countable : Countable pyval :=
  inj_countable'
    (λ v, match v with
          | PStr s => inl (inl s)
          | PInt z => inl (inr z)
          | PNaN => inr ()
          end)
    (λ c, match c with
          | inl (inl s) => PStr s
          | inl (inr z) => PInt z
          | inr _ => PNaN
          end)
    (λ v, match v with PStr _ | PInt _ | PNaN => eq_refl end).

Definition string_of_Z (z : Z) : string := NilZero.string_of_int (Z.to_int z).

(** The builtin [str]. *)
Definition str (v : pyval) : string :=
  match v with
  | PStr s => s
  | PInt z => string_of_Z z
  | PNaN => "nan"
  end.

(** A pandas table: the row labels and the named columns, in order. *)
Record DataFrame : Type := mkDataFrame {
  df_index : list pyval;
  df_columns : list (string * list pyval)
}.

#[global] Instance DataFrame_eq_dec : EqDecision DataFrame.
Proof. solve_decision. Defined.

Definition column_names (df : DataFrame) : list string := (df_columns df).*1.

(** The first entry named [name] of an association list. *)
Fixpoint assoc {A : Type} (name : string) (l : list (string * A)) : option A :=
  match l with
  | [] => None
  | (n, a) :: l' => if decide (n = name) then Some a else assoc name l'
  end.

(** [df[name].values] *)
Definition column (df : DataFrame) (name : string) : option (list pyval) :=
  assoc name (df_columns df).

(** [df.loc[:, name] = v]: overwrite the column, or add it at the end. *)
Definition set_column (df : DataFrame) (name : string) (v : pyval) : DataFrame :=
  let vals := replicate (length (df_index df)) v in
  if decide (name ∈ column_names df) then
    mkDataFrame (df_index df)
      ((λ c, if decide (c.1 = name) then (name, vals) else c) <$> df_columns df)
  else mkDataFrame (df_index df) (df_columns df ++ [(name, vals)]).

(** [df.drop(name, axis=1)] *)
Definition drop_column (df : DataFrame) (name : string) : DataFrame :=
  mkDataFrame (df_index df) (filter (λ c, c.1 ≠ name) (df_columns df)).

Fixpoint select {A : Type} (mask : list bool) (l : list A) : list A :=
  match mask, l with
  | b :: mask', a :: l' => if b then a :: select mask' l' else select mask' l'
  | _, _ => []
  end.

(** [df.query("name == 'v'")] *)
Definition query_eq (df : DataFrame) (name : string) (v : pyval) : DataFrame :=
  let mask := (λ c, bool_decide (c = v)) <$> default [] (column df name) in
  mkDataFrame (select mask (df_index df))
    ((λ c, (c.1, select mask c.2)) <$> df_columns df).

(** [a.append(b)]: the rows of [b] below those of [a]; a column that one
    of the two tables lacks is filled with the missing value. *)
Definition append (a b : DataFrame) : DataFrame :=
  let na (df : DataFrame) := replicate (length (df_index df)) PNaN in
  let names :=
    column_names a ++ filter (λ n, n ∉ column_names a) (column_names b) in
  mkDataFrame (df_index a ++ df_index b)
    ((λ n, (n, default (na a) (column a n) ++ default (na b) (column b n)))
       <$> names).

(** ** Files *)

Inductive file : Type :=
  | CsvFile (header : list string) (rows : list (list string))
  | NpyFile (m : matrix).

Inductive dtype : Type := DStr | DInt.

(** The text of a cell in a csv file. *)
Definition to_text (v : pyval) : string :=
  match v with
  | PStr s => s
  | PInt z => string_of_Z z
  | PNaN => ""
  end.

(** [df.to_csv(name, index=True)]: a header row (the index column has no
    name) and one row per label. *)
Definition to_csv (df : DataFrame) : file :=
  CsvFile ("" :: column_names df)
    (imap (λ k label,
       to_text label ::
         ((λ c, default "" (to_text <$> c.2 !! k)) <$> df_columns df))
       (df_index df)).

(** An integer literal: digits with an optional sign. *)
Definition parse_int (s : string) : option Z :=
  match s with
  | String "+"%char r => Z.of_uint <$> NilZero.uint_of_string r
  | _ => Z.of_int <$> NilZero.int_of_string s
  end.

(** The texts pandas reads as the missing value. *)
Definition na_values : list string :=
  [""; "#N/A"; "#N/A N/A"; "#NA"; "-1.#IND"; "-1.#QNAN"; "-NaN"; "-nan";
   "1.#IND"; "1.#QNAN"; "<NA>"; "N/A"; "NA"; "NULL"; "NaN"; "n/a"; "nan";
   "null"].

Definition read_text (s : string) : pyval :=
  if decide (s ∈ na_values) then PNaN else PStr s.

(** A column without a declared type: integers when every cell is an
    integer literal, text otherwise.  (Literals that pandas would read as
    floating point or boolean stay text here; residue tables hold
    identifiers and integers.) *)
Definition infer_column (cells : list string) : list pyval :=
  match mapM parse_int cells with
  | Some zs => PInt <$> zs
  | None => read_text <$> cells
  end.

Definition read_column (t : option dtype) (cells : list string)
    : result (list pyval) :=
  match t with
  | Some DStr => Ok (read_text <$> cells)
  | Some DInt =>
      match mapM parse_int cells with
      | Some zs => Ok (PInt <$> zs)
      | None => Raise ValueError
      end
  | None => Ok (infer_column cells)
  end.

Fixpoint result_mapM {A B : Type} (f : A → result B) (l : list A)
    : result (list B) :=
  match l with
  | [] => Ok []
  | a :: l' => b ← f a; bs ← result_mapM f l'; mret (b :: bs)
  end.

(** [pd.read_csv(name, index_col=0, dtype=types)] *)
Definition read_csv (fs : gmap string file) (name : string)
    (types : list (string * dtype)) : result DataFrame :=
  match fs !! name with
  | Some (CsvFile header rows) =>
      let cells (p : nat) := (λ row, default "" (row !! p)) <$> rows in
      cols ← result_mapM (λ '(p, n),
                vals ← read_column (assoc n types) (cells (S p));
                mret (n, vals))
              (imap (λ p n, (p, n)) (tail header));
      mret (mkDataFrame (infer_column (cells 0%nat)) cols)
  | _ => Raise FileNotFoundError
  end.

(** [np.load(name)] *)
Definition np_load (fs : gmap string file) (name : string) : result matrix :=
  match fs !! name with
  | Some (NpyFile m) => Ok m
  | _ => Raise FileNotFoundError
  end.

(** ** Chains *)

(** A row of [chain.coords]: its label, position and residue group. *)
Record atom : Type := mkAtom {
  atom_index : Z;
  atom_x : float;
  atom_y : float;
  atom_z : float;
  residue_index : Z
}.

Record Chain : Type := mkChain {
  chain_coords : list atom;
  chain_residues : DataFrame
}.

(** [enumerate(l)] *)
Definition enumerate {A : Type} (l : list A) : list (nat * A) :=
  imap (λ i a, (i, a)) l.

(** ** The distance map *)

Module DistanceMap.

Record t : Type := mk {
  residues_i : DataFrame;
  residues_j : DataFrame;
  dist_matrix : matrix;
  symmetric : bool;
  id_map_i : gmap pyval nat;
  id_map_j : gmap pyval nat
}.

(** [{id_: i for (i, id_) in enumerate(ids)}] *)
Definition id_map (ids : list pyval) : gmap pyval nat :=
  fold_left (λ m p, <[p.2 := p.1]> m) (enumerate ids) ∅.

(** [residues.id.values] *)
Definition ids (residues : DataFrame) : result (list pyval) :=
  match column residues "id" with
  | Some vals => Ok vals
  | None => Raise AttributeError
  end.

Definition __init__ (residues_i residues_j : DataFrame)
    (dist_matrix : matrix) (symmetric : bool) : result t :=
  ids_i ← ids residues_i;
  ids_j ← ids residues_j;
  mret (mk residues_i residues_j dist_matrix symmetric
          (id_map ids_i) (id_map ids_j)).

(** The first and last label of the rows of residue group [k]. *)
Definition first_last (C : list atom) (k : Z) : option (Z * Z) :=
  let grp := filter (λ a, residue_index a = k) C in
  match head grp, last grp with
  | Some a, Some b => Some (atom_index a, atom_index b)
  | _, _ => None
  end.

(** Groups come in ascending order of their key. *)
Definition _extract_coords (coords : list atom) : atom_ranges * list coord :=
  let xyz_coords := (λ a, (atom_x a, atom_y a, atom_z a)) <$> coords in
  let keys := merge_sort Z.le (remove_dups (residue_index <$> coords)) in
  let atom_ranges := omap (first_last coords) keys in
  (atom_ranges, xyz_coords).

Definition from_coords (chain_i : Chain) (chain_j : option Chain) : result t :=
  let '(ranges_i, coords_i) := _extract_coords (chain_coords chain_i) in
  let '(symmetric, chain_j, (ranges_j, coords_j)) :=
    match chain_j with
    | None => (true, chain_i, (ranges_i, coords_i))
    | Some c => (false, c, _extract_coords (chain_coords c))
    end in
  dists ← _distances ranges_i coords_i ranges_j coords_j symmetric;
  __init__ (chain_residues chain_i) (chain_residues chain_j) dists symmetric.

Definition csv_types : list (string * dtype) :=
  [("seqres_id", DStr); ("coord_id", DStr); ("chain_index", DInt)].

Definition from_file (fs : gmap string file) (filename : string) : result t :=
  residues ← read_csv fs (filename +:+ ".csv") csv_types;
  dist_matrix ← np_load fs (filename +:+ ".npy");
  let '(symmetric, residues_i, residues_j) :=
    if decide ("axis" ∈ column_names residues) then
      (false,
       drop_column (query_eq residues "axis" (PStr "i")) "axis",
       drop_column (query_eq residues "axis" (PStr "j")) "axis")
    else (true, residues, residues) in
  __init__ residues_i residues_j dist_matrix symmetric.

Definition _add_axis (df : DataFrame) (axis : string) : DataFrame :=
  set_column df "axis" (PStr axis).

(** Returns the file system after the two writes. *)
Definition to_file (self : t) (fs : gmap string file) (filename : string)
    : gmap string file :=
  let residues :=
    if symmetric self then residues_i self
    else append (_add_axis (residues_i self) "i")
                (_add_axis (residues_j self) "j") in
  <[filename +:+ ".npy" := NpyFile (dist_matrix self)]>
    (<[filename +:+ ".csv" := to_csv residues]> fs).

Definition dist (self : t) (i j : pyval) (raise_na : bool) : result float :=
  let i := str i in
  let j := str j in
  match id_map_i self !! PStr i with
  | None =>
      if raise_na then
        Raise (KeyError (i +:+ " not contained in first axis of distance map"))
      else Ok nan
  | Some index_i =>
      match id_map_j self !! PStr j with
      | None =>
          if raise_na then
            Raise (KeyError
                     (j +:+ " not contained in second axis of distance map"))
          else Ok nan
      | Some index_j => mget (dist_matrix self) index_i index_j
      end
  end.

(** [self[identifiers]]: the subscript is unpacked into two names. *)
Definition __getitem__ (self : t) (identifiers : list pyval) : result float :=
  match identifiers with
  | [i; j] => dist self i j true
  | _ => Raise ValueError
  end.

(** A positional argument of a call. *)
Inductive arg : Type :=
  | ArgSelf (self : t)
  | ArgFloat (v : float)
  | ArgNone.

(** The object after the call, and the outcome of the call. *)
Definition contacts (self : t) (max_dist : float) (min_dist : option float)
    : t * result (list (pyval * pyval)) :=
  (self, Raise NotImplementedError).

(** [aggregate] is declared without parameters: any positional
    argument, the receiver of a method call included, is one too many. *)
Definition aggregate (args : list arg) : result () :=
  match args with
  | [] => Raise NotImplementedError
  | _ :: _ => Raise TypeError
  end.

(** A method call [self.aggregate(...)] passes the receiver first. *)
Definition call_aggregate (self : t) (args : list arg) : t * result () :=
  (self, aggregate (ArgSelf self :: args)).

End DistanceMap.

(** ** Notions used in the statements *)

(** The position of the last occurrence of [x] in [l]. *)
Fixpoint last_index (x : pyval) (l : list pyval) : option nat :=
  match l with
  | [] => None
  | y :: l' =>
      match last_index x l' with
      | Some k => Some (S k)
      | None => if decide (y = x) then Some 0%nat else None
      end
  end.

(** The rows of a coordinate table are labelled by their position. *)
Definition positional (coords : list atom) : Prop :=
  atom_index <$> coords = Z.of_nat <$> seq 0 (length coords).

(** A chain the constructor accepts: positional atom labels, and a
    residue table with an [id] column. *)
Definition well_formed (c : Chain) : Prop :=
  positional (chain_coords c) ∧ is_Some (column (chain_residues c) "id").

(** The spec's two-residue chain, residues [A] and [B]. *)
Definition scenario_residues : DataFrame :=
  mkDataFrame [PInt 0; PInt 1]
    [("id", [PStr "A"; PStr "B"]); ("chain_index", [PInt 0; PInt 1])].

Definition scenario_chain : Chain :=
  mkChain [mkAtom 0 0 0 0 1; mkAtom 1 1 0 0 1; mkAtom 2 3 0 0 2]%float
    scenario_residues.

(** The map [from_coords] computes from it. *)
Definition scenario_map_value : DistanceMap.t :=
  DistanceMap.mk scenario_residues scenario_residues [[0; 2]; [2; 0]]%float true
    (DistanceMap.id_map [PStr "A"; PStr "B"])
    (DistanceMap.id_map [PStr "A"; PStr "B"]).

(** The spec's asymmetric scenario: one atom per axis, four units apart. *)
Definition single_residue (id : string) : DataFrame :=
  mkDataFrame [PInt 0] [("id", [PStr id])].

Definition chain_origin : Chain :=
  mkChain [mkAtom 0 0 0 0 1]%float (single_residue "X").

Definition chain_above : Chain :=
  mkChain [mkAtom 0 0 0 4 1]%float (single_residue "Y").

(** A residue table in which the identifier [7] occurs twice. *)
Definition duplicated_residues : DataFrame :=
  mkDataFrame [PInt 0; PInt 1; PInt 2]
    [("id", [PStr "7"; PStr "8"; PStr "7"])].

Definition duplicated_matrix : matrix :=
  [[0; 1; 2]; [3; 4; 5]; [6; 7; 8]]%float.

(** A symmetric map whose residue identifiers are the strings [1], [2]. *)
Definition numbered_residues : DataFrame :=
  mkDataFrame [PInt 0; PInt 1]
    [("id", [PStr "1"; PStr "2"]); ("coord_id", [PStr "1"; PStr "2"])].

Definition numbered_map : DistanceMap.t :=
  DistanceMap.mk numbered_residues numbered_residues [[0; 2]; [2; 0]]%float true
    (DistanceMap.id_map [PStr "1"; PStr "2"])
    (DistanceMap.id_map [PStr "1"; PStr "2"]).

(** The same map after [to_file] and [from_file]. *)
Definition reloaded_residues : DataFrame :=
  mkDataFrame [PInt 0; PInt 1]
    [("id", [PInt 1; PInt 2]); ("coord_id", [PStr "1"; PStr "2"])].

Definition reloaded_map : DistanceMap.t :=
  DistanceMap.mk reloaded_residues reloaded_residues [[0; 2]; [2; 0]]%float true
    (DistanceMap.id_map [PInt 1; PInt 2])
    (DistanceMap.id_map [PInt 1; PInt 2]).

(** ** Notions used in the further properties *)

(** Not-a-number, or a value whose sign bit is clear. *)
Definition sf_unsigned (x : spec_float) : bool :=
  match x with
  | S754_zero s | S754_infinity s | S754_finite s _ _ => negb s
  | S754_nan => true
  end.

Definition unsigned (x : float) : Prop := sf_unsigned (Prim2SF x) = true.

(** A matrix of [n] rows of [m] cells. *)
Definition has_shape (n m : nat) (d : matrix) : Prop :=
  length d = n ∧ Forall (λ row, length row = m) d.

(** The coordinates of an atom. *)
Definition xyz (a : atom) : coord := (atom_x a, atom_y a, atom_z a).

(** Every column has one cell per label. *)
Definition well_shaped (df : DataFrame) : Prop :=
  Forall (λ c, length c.2 = length (df_index df)) (df_columns df).

(** A column that reads back as it was written. *)
Definition survives (types : list (string * dtype)) (c : string * list pyval)
    : Prop :=
  read_column (assoc c.1 types) (to_text <$> c.2) = Ok c.2.

(** A table that [read_csv], called as [from_file] calls it, gives back
    as [to_csv] wrote it. *)
Definition csv_stable (df : DataFrame) : Prop :=
  ∀ (fs : gmap string file) (name : string),
    fs !! name = Some (to_csv df) →
    read_csv fs name DistanceMap.csv_types = Ok df.

(** The rows of [residues_j] below those of [residues_i], with an [axis]
    column telling them apart. *)
Definition stacked (residues_i residues_j : DataFrame) : DataFrame :=
  mkDataFrame (df_index residues_i ++ df_index residues_j)
    (zip_with (λ ci cj, (ci.1, ci.2 ++ cj.2))
       (df_columns residues_i) (df_columns residues_j)
     ++ [("axis",
          replicate (length (df_index residues_i)) (PStr "i")
          ++ replicate (length (df_index residues_j)) (PStr "j"))]).

(** A residue without atoms, its last index below its first. *)
Definition empty_ranges : atom_ranges := [(1, 0)].

(** The map [from_coords] computes from the two one-atom chains. *)
Definition pair_map_value : DistanceMap.t :=
  DistanceMap.mk (single_residue "X") (single_residue "Y") [[4]]%float false
    (DistanceMap.id_map [PStr "X"]) (DistanceMap.id_map [PStr "Y"]).

(** * Proofs *)

Example scenario_sym :
  _distances scenario_ranges scenario_coords scenario_ranges scenario_coords true
  = Ok [[0; 2]; [2; 0]]%float.
Proof. vm_compute. reflexivity. Qed.

Example scenario_asym :
  _distances scenario_ranges scenario_coords scenario_ranges scenario_coords false
  = Ok [[0; 2]; [2; 0]]%float.
Proof. vm_compute. reflexivity. Qed.

(** ** The order of binary64 numbers

    [<?] and [<=?] are specified by [SFcompare] on the decoded value;
    away from not-a-number it is a total preorder. *)

Section FloatOrder.

Ltac fold_pos_compare :=
  repeat match goal with
  | |- context [Pos.compare_cont Eq ?a ?b] =>
      change (Pos.compare_cont Eq a b) with (Pos.compare a b)
  end.

Ltac split_compares :=
  repeat match goal with
  | |- context [(?a ?= ?b)%Z] => destruct (Z.compare_spec a b); simpl
  | |- context [(?a ?= ?b)%positive] => destruct (Pos.compare_spec a b); simpl
  end.

Lemma SFcompare_refl x : sf_is_nan x = false → SFcompare x x = Some Eq.
Proof.
  destruct x as [s|s| |s m e]; simpl; try destruct s; try done;
    rewrite Z.compare_refl; fold_pos_compare; by rewrite Pos.compare_refl.
Qed.

Lemma SFcompare_nan_l x y : sf_is_nan x = true → SFcompare x y = None.
Proof. by destruct x. Qed.

Lemma SFleb_trans x y z :
  SFleb x y = true → SFleb y z = true → SFleb x z = true.
Proof.
  unfold SFleb.
  destruct x as [sx|sx| |sx mx ex], y as [sy|sy| |sy my ey],
           z as [sz|sz| |sz mz ez]; simpl;
    try destruct sx; try destruct sy; try destruct sz; simpl;
    try (intros; congruence);
    fold_pos_compare; split_compares; try (intros; congruence); lia.
Qed.

Lemma SFltb_false_SFleb x y :
  sf_is_nan x = false → sf_is_nan y = false →
  SFltb y x = false → SFleb x y = true.
Proof.
  unfold SFltb, SFleb.
  destruct x as [sx|sx| |sx mx ex], y as [sy|sy| |sy my ey]; simpl;
    try destruct sx; try destruct sy; simpl; try (intros; congruence);
    fold_pos_compare; split_compares; try (intros; congruence); lia.
Qed.

Lemma SFltb_SFleb x y : SFltb x y = true → SFleb x y = true.
Proof. unfold SFltb, SFleb. by destruct (SFcompare x y) as [[]|]. Qed.

Lemma is_nan_spec (x : float) : PrimFloat.is_nan x = sf_is_nan (Prim2SF x).
Proof.
  unfold PrimFloat.is_nan. rewrite FloatAxioms.eqb_spec. unfold SFeqb.
  destruct (sf_is_nan (Prim2SF x)) eqn:E.
  - by rewrite SFcompare_nan_l.
  - by rewrite SFcompare_refl.
Qed.

Lemma leb_trans (x y z : float) :
  (x <=? y)%float = true → (y <=? z)%float = true → (x <=? z)%float = true.
Proof. rewrite !leb_spec. apply SFleb_trans. Qed.

Lemma leb_refl (x : float) :
  PrimFloat.is_nan x = false → (x <=? x)%float = true.
Proof.
  rewrite is_nan_spec, leb_spec. intros H. unfold SFleb.
  by rewrite SFcompare_refl.
Qed.

Lemma ltb_false_leb (x y : float) :
  PrimFloat.is_nan x = false → PrimFloat.is_nan y = false →
  (y <? x)%float = false → (x <=? y)%float = true.
Proof. rewrite !is_nan_spec, ltb_spec, leb_spec. apply SFltb_false_SFleb. Qed.

Lemma ltb_leb (x y : float) : (x <? y)%float = true → (x <=? y)%float = true.
Proof. rewrite ltb_spec, leb_spec. apply SFltb_SFleb. Qed.

Lemma ltb_not_nan_l (x y : float) :
  (x <? y)%float = true → PrimFloat.is_nan x = false.
Proof.
  rewrite ltb_spec, is_nan_spec. unfold SFltb.
  destruct (sf_is_nan (Prim2SF x)) eqn:E; [|done].
  by rewrite SFcompare_nan_l.
Qed.

Lemma ltb_leb_false (x y : float) :
  (x <? y)%float = true → (y <=? x)%float = false.
Proof.
  rewrite ltb_spec, leb_spec. unfold SFltb, SFleb.
  destruct (Prim2SF x) as [sx|sx| |sx mx ex], (Prim2SF y) as [sy|sy| |sy my ey];
    simpl; try destruct sx; try destruct sy; simpl; try (intros; congruence);
    fold_pos_compare; split_compares; try (intros; congruence); lia.
Qed.

End FloatOrder.

(** ** The running minimum *)

Lemma pymin_cases a b : pymin a b = a ∨ pymin a b = b.
Proof. unfold pymin. destruct (b <? a)%float; auto. Qed.

Lemma pymin_not_nan a b :
  PrimFloat.is_nan a = false → PrimFloat.is_nan (pymin a b) = false.
Proof.
  unfold pymin. destruct (b <? a)%float eqn:E; [|done].
  intros _. by eapply ltb_not_nan_l.
Qed.

Lemma pymin_le_l a b :
  PrimFloat.is_nan a = false → (pymin a b <=? a)%float = true.
Proof.
  unfold pymin. destruct (b <? a)%float eqn:E.
  - intros _. by apply ltb_leb.
  - apply leb_refl.
Qed.

Lemma pymin_le_r a b :
  PrimFloat.is_nan a = false → PrimFloat.is_nan b = false →
  (pymin a b <=? b)%float = true.
Proof.
  unfold pymin. destruct (b <? a)%float eqn:E.
  - intros _. apply leb_refl.
  - intros Ha Hb. by apply ltb_false_leb.
Qed.

Lemma fold_pymin_le_init l a :
  PrimFloat.is_nan a = false → (fold_left pymin l a <=? a)%float = true.
Proof.
  revert a. induction l as [|x l IH]; intros a Ha; simpl.
  - by apply leb_refl.
  - eapply leb_trans; [apply IH; by apply pymin_not_nan|by apply pymin_le_l].
Qed.

Lemma fold_pymin_elem l a : fold_left pymin l a ∈ a :: l.
Proof.
  revert a. induction l as [|x l IH]; intros a; simpl; [set_solver|].
  specialize (IH (pymin a x)). apply elem_of_cons in IH as [IH|IH].
  - rewrite IH. destruct (pymin_cases a x) as [->| ->]; set_solver.
  - set_solver.
Qed.

Lemma fold_pymin_least l a :
  PrimFloat.is_nan a = false → is_least (fold_left pymin l a) (a :: l).
Proof.
  intros Ha. split; [apply fold_pymin_elem|].
  revert a Ha. induction l as [|y l IH]; intros a Ha x Hx Hnan.
  - apply list_elem_of_singleton in Hx as ->. by apply leb_refl.
  - simpl. apply elem_of_cons in Hx as [->|Hx].
    + eapply leb_trans; [apply fold_pymin_le_init; by apply pymin_not_nan|].
      by apply pymin_le_l.
    + apply elem_of_cons in Hx as [->|Hx].
      * eapply leb_trans; [apply fold_pymin_le_init; by apply pymin_not_nan|].
        by apply pymin_le_r.
      * apply IH; [by apply pymin_not_nan| |done]. set_solver.
Qed.

(** ** Loops and array accesses *)

Lemma bind_Ok {A B : Type} (m : result A) (f : A → result B) b :
  m ≫= f = Ok b ↔ ∃ a, m = Ok a ∧ f a = Ok b.
Proof.
  destruct m as [a|e]; simpl; split.
  - intros H. by exists a.
  - by intros (a' & [= ->] & H).
  - done.
  - by intros (a' & [=] & _).
Qed.

Lemma getitem_nat {A : Type} (l : list A) (i : nat) a :
  l !! i = Some a → getitem l (Z.of_nat i) = Ok a.
Proof.
  intros H. unfold getitem.
  destruct (Z.ltb_spec (Z.of_nat i) 0) as [?|_]; [lia|].
  destruct (Z.ltb_spec (Z.of_nat i) 0) as [?|_]; [lia|].
  by rewrite Nat2Z.id, H.
Qed.

Lemma length_range a b : length (range a b) = Z.to_nat (b - a).
Proof. unfold range. by rewrite length_fmap, length_seq. Qed.

Lemma lookup_range a b (n : nat) :
  (n < Z.to_nat (b - a))%nat → range a b !! n = Some (a + Z.of_nat n).
Proof.
  intros Hn. unfold range. rewrite list_lookup_fmap, lookup_seq_lt by done.
  done.
Qed.

(** Reading the array along an in-bounds range yields the slice. *)
Lemma range_atoms (coords : list coord) (r : Z * Z) :
  0 ≤ r.1 → r.2 < Z.of_nat (length coords) →
  Forall2 (λ k p, getitem coords k = Ok p) (range r.1 (r.2 + 1)) (atoms coords r).
Proof.
  intros H1 H2. apply Forall2_same_length_lookup_2.
  - rewrite length_range. unfold atoms. rewrite length_take, length_drop. lia.
  - intros n k p Hk Hp.
    assert (n < Z.to_nat (r.2 + 1 - r.1))%nat as Hn.
    { apply lookup_lt_Some in Hk. by rewrite length_range in Hk. }
    rewrite lookup_range in Hk by done. injection Hk as <-.
    unfold atoms in Hp. rewrite lookup_take_lt, lookup_drop in Hp by done.
    replace (r.1 + Z.of_nat n) with (Z.of_nat (Z.to_nat r.1 + n)) by lia.
    by apply getitem_nat.
Qed.

Lemma atom_pair_loop_ok coords_i coords_j range_i range_j :
  0 ≤ range_i.1 → range_i.2 < Z.of_nat (length coords_i) →
  0 ≤ range_j.1 → range_j.2 < Z.of_nat (length coords_j) →
  atom_pair_loop coords_i coords_j range_i range_j
  = Ok (min_atom_dist coords_i coords_j range_i range_j).
Proof.
  intros Hi1 Hi2 Hj1 Hj2. unfold atom_pair_loop, min_atom_dist, pair_dists.
  pose proof (range_atoms coords_i range_i Hi1 Hi2) as Fi.
  pose proof (range_atoms coords_j range_j Hj1 Hj2) as Fj.
  generalize LARGE_DIST as m.
  induction Fi as [|k p ks ps Hk _ IH]; intros m; simpl; [done|].
  rewrite fold_left_app.
  assert (∀ m, for_each (λ a_j min_dist,
             p ← getitem coords_i k; q ← getitem coords_j a_j;
             mret (pymin min_dist (cur_dist p q)))
            (range range_j.1 (range_j.2 + 1)) m
          = Ok (fold_left pymin (q ← atoms coords_j range_j; [cur_dist p q]) m))
    as ->.
  { clear IH. intros m'. rewrite Hk. revert m'.
    induction Fj as [|k' q ks' qs Hk' _ IH']; intros m'; simpl; [done|].
    rewrite Hk'. simpl. apply IH'. }
  simpl. apply IH.
Qed.

Lemma mget_zeros n m i j :
  mget (zeros n m) i j
  = if decide (i < n ∧ j < m)%nat then Ok 0%float else Raise IndexError.
Proof.
  unfold mget, zeros.
  destruct (replicate n (replicate m 0%float) !! i) as [row|] eqn:Ei.
  - apply lookup_replicate in Ei as [-> Hi].
    destruct (replicate m 0%float !! j) as [v|] eqn:Ej.
    + apply lookup_replicate in Ej as [-> Hj]. by rewrite decide_True by lia.
    + apply lookup_replicate_None in Ej. by rewrite decide_False by lia.
  - apply lookup_replicate_None in Ei. by rewrite decide_False by lia.
Qed.

Lemma mset_ok d i j v x :
  mget d i j = Ok x → ∃ d', mset d i j v = Ok d'.
Proof.
  unfold mget, mset. destruct (d !! i) as [row|]; [|done].
  destruct (row !! j) eqn:E; [|done]. intros _.
  apply lookup_lt_Some in E. rewrite decide_True by done. eauto.
Qed.

Lemma mget_mset d i j v d' i' j' :
  mset d i j v = Ok d' →
  mget d' i' j' = if decide (i' = i ∧ j' = j) then Ok v else mget d i' j'.
Proof.
  unfold mset, mget. destruct (d !! i) as [row|] eqn:Ei; [|done].
  case_decide as Hj; [|done]. intros [= <-].
  destruct (decide (i' = i)) as [->|Hne].
  - rewrite list_lookup_insert_eq by (by eapply lookup_lt_Some).
    rewrite Ei. destruct (decide (j' = j)) as [->|Hne].
    + rewrite list_lookup_insert_eq by done. by rewrite decide_True.
    + rewrite list_lookup_insert_ne by done. rewrite decide_False by tauto. done.
  - rewrite list_lookup_insert_ne by done. rewrite decide_False by tauto. done.
Qed.

(** ** The residue-pair loops *)

Lemma for_each_preserves {A S : Type} (P : S → Prop)
    (body : A → S → result S) (l : list A) (s s' : S) :
  (∀ a s s', body a s = Ok s' → P s → P s') →
  for_each body l s = Ok s' → P s → P s'.
Proof.
  intros Hbody. revert s. induction l as [|a l IH]; intros s; simpl.
  - by intros [= <-].
  - intros H Hs. apply bind_Ok in H as (s1 & H1 & H). eauto.
Qed.

(** The running minimum is a number whenever the atom loops return. *)
Lemma atom_pair_loop_not_nan coords_i coords_j range_i range_j v :
  atom_pair_loop coords_i coords_j range_i range_j = Ok v →
  PrimFloat.is_nan v = false.
Proof.
  unfold atom_pair_loop. intros H.
  eapply (for_each_preserves (λ m, PrimFloat.is_nan m = false)); [|exact H|done].
  clear. intros a_i m m' H.
  eapply (for_each_preserves (λ m, PrimFloat.is_nan m = false)); [|exact H].
  clear. intros a_j m m' H Hm.
  apply bind_Ok in H as (p & _ & H). apply bind_Ok in H as (q & _ & [= <-]).
  by apply pymin_not_nan.
Qed.

Lemma filled_zeros (N_i N_j : nat) (F : nat → nat → float) :
  filled N_i N_j F 0 0 (zeros N_i N_j).
Proof.
  intros i' j'. rewrite mget_zeros. case_decide; [|done].
  by rewrite decide_False by lia.
Qed.

Lemma filled_mset (N_i N_j : nat) (F : nat → nat → float) (i j : nat)
    (d d' : matrix) :
  filled N_i N_j F i j d → mset d i j (F i j) = Ok d' →
  filled N_i N_j F i (S j) d'.
Proof.
  intros Hd Hd' i' j'. rewrite (mget_mset _ _ _ _ _ _ _ Hd'), Hd.
  assert (∃ x, mget d i j = Ok x) as [x Hx].
  { unfold mset in Hd'. unfold mget. destruct (d !! i) as [row|]; [|done].
    case_decide as Hj; [|done].
    destruct (lookup_lt_is_Some_2 row j Hj) as [x ->]. eauto. }
  rewrite Hd in Hx. case_decide as Hin; [|done].
  repeat case_decide; try done; try lia; destruct_and?; by subst.
Qed.

Lemma in_bounds_lookup residues coords (i : nat) r :
  in_bounds residues coords → residues !! i = Some r →
  0 ≤ r.1 ∧ r.2 < Z.of_nat (length coords).
Proof. intros H Hr. exact (proj1 (Forall_lookup _ _) H _ _ Hr). Qed.

Lemma in_boundsb_correct residues coords :
  in_boundsb residues coords = true → in_bounds residues coords.
Proof.
  unfold in_boundsb, in_bounds. rewrite forallb_forall, Forall_forall.
  intros H r Hr. apply list_elem_of_In, H in Hr.
  apply andb_true_iff in Hr as [H1 H2]. lia.
Qed.

(** *** Every returned matrix *)

Section ReturnedMatrix.

Variables (residues_i : atom_ranges) (coords_i : list coord).
Variables (residues_j : atom_ranges) (coords_j : list coord).
Variable symmetric : bool.

Local Abbreviation N_i := (length residues_i).
Local Abbreviation N_j := (length residues_j).
Local Abbreviation G := (stored residues_i coords_i residues_j coords_j symmetric).
Local Abbreviation step :=
  (cell_step residues_i coords_i residues_j coords_j symmetric).

Lemma cell_step_returned i j d d' :
  (i < N_i)%nat → (j < N_j)%nat → filled N_i N_j G i j d →
  step i j d = Ok d' → filled N_i N_j G i (S j) d'.
Proof.
  intros Hi Hj Hd. unfold cell_step.
  destruct (symmetric && (j <=? i)%nat) eqn:E; intros H;
    apply (filled_mset _ _ _ _ _ _ _ Hd); unfold stored; rewrite E.
  - apply andb_true_iff in E as [Hsym Hle]. apply Nat.leb_le in Hle.
    apply bind_Ok in H as (v & Hv & Hset). rewrite Hd in Hv.
    case_decide as Hin; [|done]. injection Hv as <-.
    destruct (Nat.eqb_spec j i) as [->|Hne].
    + by rewrite decide_False in Hset by lia.
    + rewrite decide_True in Hset by lia. unfold stored in Hset.
      rewrite (proj2 (Nat.leb_gt i j)) in Hset by lia.
      by rewrite andb_false_r in Hset.
  - destruct (lookup_lt_is_Some_2 residues_i i Hi) as [ra Ha].
    destruct (lookup_lt_is_Some_2 residues_j j Hj) as [rb Hb].
    rewrite (getitem_nat _ _ _ Ha), (getitem_nat _ _ _ Hb) in H. simpl in H.
    apply bind_Ok in H as (v & Hv & Hset). unfold looped.
    rewrite (list_lookup_total_correct _ _ _ Ha).
    rewrite (list_lookup_total_correct _ _ _ Hb). by rewrite Hv.
Qed.

Lemma row_returned i n j d d' :
  (i < N_i)%nat → (j + n = N_j)%nat → filled N_i N_j G i j d →
  for_each (step i) (seq j n) d = Ok d' → filled N_i N_j G (S i) 0 d'.
Proof.
  intros Hi. revert j d. induction n as [|n IH]; intros j d Hn Hd; simpl.
  - intros [= <-] i' j'. rewrite Hd. repeat case_decide; try done; lia.
  - intros H. apply bind_Ok in H as (d1 & H1 & H).
    apply (IH (S j) d1); [lia| |done].
    by apply (cell_step_returned i j d); [|lia|..].
Qed.

Lemma rows_returned n i d d' :
  (i + n = N_i)%nat → filled N_i N_j G i 0 d →
  for_each (λ i d, for_each (step i) (seq 0 N_j) d) (seq i n) d = Ok d' →
  filled N_i N_j G N_i 0 d'.
Proof.
  revert i d. induction n as [|n IH]; intros i d Hn Hd; simpl.
  - intros [= <-]. by assert (i = N_i) as -> by lia.
  - intros H. apply bind_Ok in H as (d1 & H1 & H).
    apply (IH (S i) d1); [lia| |done].
    by apply (row_returned i N_j 0 d); [lia|..].
Qed.

(** Whenever the kernel returns, the matrix has shape [N_i x N_j] and
    holds [stored] everywhere. *)
Lemma distances_returned D :
  _distances residues_i coords_i residues_j coords_j symmetric = Ok D →
  ∀ i j, mget D i j =
    if decide (i < N_i ∧ j < N_j)%nat then Ok (G i j) else Raise IndexError.
Proof.
  intros HD i j.
  rewrite (rows_returned N_i 0 (zeros N_i N_j) D);
    [|done|apply filled_zeros|exact HD].
  case_decide; [|done]. by rewrite decide_True by lia.
Qed.

(** *** Inputs on which the kernel returns

    Every range lies inside its coordinate array, and a symmetric call has
    no more rows than columns. *)

Hypothesis bounds_i : in_bounds residues_i coords_i.
Hypothesis bounds_j : in_bounds residues_j coords_j.
Hypothesis square : symmetric = true → (N_i ≤ N_j)%nat.

Lemma looped_in_bounds (i j : nat) range_i range_j :
  residues_i !! i = Some range_i → residues_j !! j = Some range_j →
  atom_pair_loop coords_i coords_j range_i range_j
    = Ok (min_atom_dist coords_i coords_j range_i range_j) ∧
  looped residues_i coords_i residues_j coords_j i j
    = min_atom_dist coords_i coords_j range_i range_j.
Proof.
  intros Ha Hb.
  destruct (in_bounds_lookup _ _ _ _ bounds_i Ha).
  destruct (in_bounds_lookup _ _ _ _ bounds_j Hb).
  assert (atom_pair_loop coords_i coords_j range_i range_j
          = Ok (min_atom_dist coords_i coords_j range_i range_j)) as Hloop
    by (by apply atom_pair_loop_ok).
  split; [done|]. unfold looped.
  by rewrite (list_lookup_total_correct _ _ _ Ha),
             (list_lookup_total_correct _ _ _ Hb), Hloop.
Qed.

Lemma cell_step_succeeds i j d :
  (i < N_i)%nat → (j < N_j)%nat → filled N_i N_j G i j d →
  ∃ d', step i j d = Ok d'.
Proof.
  intros Hi Hj Hd.
  assert (∀ v, ∃ d', mset d i j v = Ok d') as Hset.
  { intros v. apply (mset_ok d i j v 0%float).
    rewrite Hd. rewrite decide_True by lia. by rewrite decide_False by lia. }
  unfold cell_step. destruct (symmetric && (j <=? i)%nat) eqn:E.
  - apply andb_true_iff in E as [Hsym Hle]. apply Nat.leb_le in Hle.
    rewrite Hd. rewrite decide_True by (specialize (square Hsym); lia).
    simpl. apply Hset.
  - destruct (lookup_lt_is_Some_2 residues_i i Hi) as [ra Ha].
    destruct (lookup_lt_is_Some_2 residues_j j Hj) as [rb Hb].
    rewrite (getitem_nat _ _ _ Ha), (getitem_nat _ _ _ Hb). simpl.
    destruct (looped_in_bounds i j ra rb Ha Hb) as [-> _]. simpl. apply Hset.
Qed.

Lemma row_succeeds i n j d :
  (i < N_i)%nat → (j + n = N_j)%nat → filled N_i N_j G i j d →
  ∃ d', for_each (step i) (seq j n) d = Ok d'.
Proof.
  intros Hi. revert j d. induction n as [|n IH]; intros j d Hn Hd; simpl.
  - by exists d.
  - destruct (cell_step_succeeds i j d) as [d1 H1]; [done|lia|done|].
    rewrite H1. simpl. apply IH; [lia|].
    by apply (cell_step_returned i j d); [|lia|..].
Qed.

Lemma rows_succeed n i d :
  (i + n = N_i)%nat → filled N_i N_j G i 0 d →
  ∃ d', for_each (λ i d, for_each (step i) (seq 0 N_j) d) (seq i n) d = Ok d'.
Proof.
  revert i d. induction n as [|n IH]; intros i d Hn Hd; simpl.
  - by exists d.
  - destruct (row_succeeds i N_j 0 d) as [d1 H1]; [lia|done|done|].
    rewrite H1. simpl. apply IH; [lia|].
    by apply (row_returned i N_j 0 d); [lia|..].
Qed.

Lemma stored_in_bounds (i j : nat) :
  (i < N_i)%nat → (j < N_j)%nat →
  G i j = entry residues_i coords_i residues_j coords_j symmetric i j.
Proof.
  intros Hi Hj. unfold stored, entry.
  destruct (symmetric && (j <=? i)%nat) eqn:E.
  - destruct (j =? i)%nat; [done|].
    apply andb_true_iff in E as [Hsym Hle]. apply Nat.leb_le in Hle.
    specialize (square Hsym).
    destruct (lookup_lt_is_Some_2 residues_i j) as [ra Ha]; [lia|].
    destruct (lookup_lt_is_Some_2 residues_j i) as [rb Hb]; [lia|].
    destruct (looped_in_bounds j i ra rb Ha Hb) as [_ ->].
    by rewrite (list_lookup_total_correct _ _ _ Ha),
               (list_lookup_total_correct _ _ _ Hb).
  - destruct (lookup_lt_is_Some_2 residues_i i Hi) as [ra Ha].
    destruct (lookup_lt_is_Some_2 residues_j j Hj) as [rb Hb].
    destruct (looped_in_bounds i j ra rb Ha Hb) as [_ ->].
    by rewrite (list_lookup_total_correct _ _ _ Ha),
               (list_lookup_total_correct _ _ _ Hb).
Qed.

(** On such inputs the kernel returns, and the returned array holds
    [entry] everywhere. *)
Lemma distances_entries :
  ∃ D, _distances residues_i coords_i residues_j coords_j symmetric = Ok D ∧
    ∀ i j, mget D i j =
      if decide (i < N_i ∧ j < N_j)%nat
      then Ok (entry residues_i coords_i residues_j coords_j symmetric i j)
      else Raise IndexError.
Proof.
  destruct (rows_succeed N_i 0 (zeros N_i N_j)) as [D HD];
    [done|apply filled_zeros|].
  exists D. split; [exact HD|]. intros i j.
  rewrite (distances_returned D HD). case_decide as Hin; [|done].
  destruct Hin. by rewrite stored_in_bounds.
Qed.

End ReturnedMatrix.

(** ** Arithmetic facts about distances *)

Lemma is_finite_spec (x : float) :
  PrimFloat.is_finite x = true →
  (∃ s, Prim2SF x = S754_zero s) ∨ (∃ s m e, Prim2SF x = S754_finite s m e).
Proof.
  unfold PrimFloat.is_finite, PrimFloat.is_infinity.
  rewrite is_nan_spec, FloatAxioms.eqb_spec, abs_spec.
  destruct (Prim2SF x) as [s|s| |s m e]; [eauto|by destruct s|done|eauto 6].
Qed.

(** A number minus itself is zero. *)
Lemma sub_diag (x : float) : PrimFloat.is_finite x = true → (x - x = 0)%float.
Proof.
  intros Hx. apply Prim2SF_inj. rewrite sub_spec.
  destruct (is_finite_spec x Hx) as [[s ->]|(s & m & e & ->)].
  - by destruct s.
  - unfold SF64sub, SFsub. by rewrite Z.sub_diag.
Qed.

Definition finite_coord (p : coord) : bool :=
  PrimFloat.is_finite p.1.1 && PrimFloat.is_finite p.1.2 && PrimFloat.is_finite p.2.

(** An atom is at distance zero from itself. *)
Lemma cur_dist_diag (p : coord) : finite_coord p = true → cur_dist p p = 0%float.
Proof.
  destruct p as [[px py] pz]. unfold finite_coord. simpl.
  rewrite !andb_true_iff. intros [[Hx Hy] Hz].
  by rewrite (sub_diag px), (sub_diag py), (sub_diag pz).
Qed.

Lemma binary_round_aux_sign s m e l :
  match binary_round_aux prec emax s m e l with
  | S754_zero s' | S754_infinity s' | S754_finite s' _ _ => s' = s
  | S754_nan => True
  end.
Proof.
  unfold binary_round_aux.
  destruct (shr_fexp prec emax m e l) as [mrs' e'].
  destruct (shr_fexp prec emax _ e' loc_Exact) as [mrs'' e''].
  destruct (shr_m mrs''); [done| |done].
  by destruct (e'' <=? emax - prec).
Qed.

(** A square root is not-a-number or at least zero. *)
Lemma sqrt_nonneg (x : float) :
  PrimFloat.is_nan (PrimFloat.sqrt x) = false →
  (0 <=? PrimFloat.sqrt x)%float = true.
Proof.
  rewrite is_nan_spec, leb_spec, sqrt_spec.
  change (Prim2SF 0) with (S754_zero false). unfold SF64sqrt, SFsqrt.
  destruct (Prim2SF x) as [s|s| |s m e]; try destruct s; try done.
  destruct (SFsqrt_core_binary prec emax (Z.pos m) e) as [[mz ez] lz].
  pose proof (binary_round_aux_sign false mz ez lz) as Hs.
  by destruct (binary_round_aux prec emax false mz ez lz) as [s|s| |s m' e'];
    try subst s.
Qed.

Lemma cur_dist_nonneg (p q : coord) :
  PrimFloat.is_nan (cur_dist p q) = false → (0 <=? cur_dist p q)%float = true.
Proof. destruct p as [[? ?] ?], q as [[? ?] ?]. apply sqrt_nonneg. Qed.

(** Comparing equal with a finite non-zero number means being it. *)
Lemma SFcompare_Eq_finite x s m e :
  SFcompare x (S754_finite s m e) = Some Eq → x = S754_finite s m e.
Proof.
  destruct x as [sx|sx| |sx mx ex]; simpl; try destruct sx; try destruct s;
    try done.
  - destruct (Z.compare_spec ex e) as [->| |]; try done.
    change (Pos.compare_cont Eq mx m) with (Pos.compare mx m).
    destruct (Pos.compare_spec mx m) as [->| |]; done.
  - destruct (Z.compare_spec ex e) as [->| |]; try done.
    change (Pos.compare_cont Eq mx m) with (Pos.compare mx m).
    destruct (Pos.compare_spec mx m) as [->| |]; done.
Qed.

Lemma leb_LARGE_DIST (x : float) :
  (x <=? LARGE_DIST)%float = true → (x <? LARGE_DIST)%float = false →
  x = LARGE_DIST.
Proof.
  rewrite leb_spec, ltb_spec. unfold SFleb, SFltb. intros Hle Hlt.
  apply Prim2SF_inj.
  change (Prim2SF LARGE_DIST) with (S754_finite false 8589934592000000 (-33)) in *.
  apply SFcompare_Eq_finite.
  by destruct (SFcompare (Prim2SF x) _) as [[]|].
Qed.

(** The running minimum is an element of the list, or the unbeaten
    initial value. *)
Lemma fold_pymin_pick l a :
  fold_left pymin l a ∈ l ∨
  (fold_left pymin l a = a ∧ ∀ x, x ∈ l → (x <? a)%float = false).
Proof.
  revert a. induction l as [|y l IH]; intros a; simpl.
  - right. split; [done|]. intros x Hx. by apply elem_of_nil in Hx.
  - destruct (y <? a)%float eqn:E.
    + replace (pymin a y) with y by (unfold pymin; by rewrite E).
      left. pose proof (fold_pymin_elem l y). set_solver.
    + replace (pymin a y) with a by (unfold pymin; by rewrite E).
      destruct (IH a) as [Hin|[Heq Hall]]; [left; set_solver|].
      right. split; [done|]. intros x Hx.
      apply elem_of_cons in Hx as [->|Hx]; auto.
Qed.

Lemma is_least_tail v a l : is_least v (a :: l) → v ∈ l → is_least v l.
Proof. intros [_ H] Hin. split; [done|]. intros x Hx. apply H. set_solver. Qed.

(** The cell value against the atom-pair distances. *)
Lemma min_atom_dist_least coords_i coords_j range_i range_j :
  is_least (min_atom_dist coords_i coords_j range_i range_j)
    (LARGE_DIST :: pair_dists coords_i coords_j range_i range_j).
Proof. by apply fold_pymin_least. Qed.

Lemma min_atom_dist_far coords_i coords_j range_i range_j :
  (∀ x, x ∈ pair_dists coords_i coords_j range_i range_j →
        (LARGE_DIST <? x)%float = true) →
  min_atom_dist coords_i coords_j range_i range_j = LARGE_DIST.
Proof.
  intros Hfar. unfold min_atom_dist.
  destruct (fold_pymin_pick (pair_dists coords_i coords_j range_i range_j)
              LARGE_DIST) as [Hin|[Heq _]]; [|done].
  apply Hfar, ltb_leb_false in Hin.
  by rewrite fold_pymin_le_init in Hin.
Qed.

Lemma min_atom_dist_near coords_i coords_j range_i range_j x :
  x ∈ pair_dists coords_i coords_j range_i range_j →
  (x <=? LARGE_DIST)%float = true →
  is_least (min_atom_dist coords_i coords_j range_i range_j)
    (pair_dists coords_i coords_j range_i range_j).
Proof.
  intros Hx Hle. apply (is_least_tail _ LARGE_DIST).
  { apply min_atom_dist_least. }
  unfold min_atom_dist.
  destruct (fold_pymin_pick (pair_dists coords_i coords_j range_i range_j)
              LARGE_DIST) as [Hin|[Heq Hall]]; [done|].
  rewrite Heq. by rewrite <- (leb_LARGE_DIST x Hle (Hall x Hx)).
Qed.

Lemma elem_of_pair_dists coords_i coords_j range_i range_j x :
  x ∈ pair_dists coords_i coords_j range_i range_j ↔
  ∃ p q, p ∈ atoms coords_i range_i ∧ q ∈ atoms coords_j range_j
         ∧ x = cur_dist p q.
Proof.
  unfold pair_dists. rewrite list_elem_of_bind. split.
  - intros (p & Hx & Hp). apply list_elem_of_bind in Hx as (q & Hx & Hq).
    apply list_elem_of_singleton in Hx. eauto.
  - intros (p & q & Hp & Hq & ->). exists p. split; [|done].
    apply list_elem_of_bind. exists q. split; [|done].
    by apply list_elem_of_singleton.
Qed.

(** A residue with at least one atom, inside the array, has atoms. *)
Lemma atoms_nonempty (coords : list coord) (r : Z * Z) :
  0 ≤ r.1 → r.1 ≤ r.2 → r.2 < Z.of_nat (length coords) →
  ∃ p, p ∈ atoms coords r.
Proof.
  intros H0 H1 H2. unfold atoms.
  destruct (lookup_lt_is_Some_2 coords (Z.to_nat r.1)) as [p Hp]; [lia|].
  exists p. apply list_elem_of_lookup. exists 0%nat.
  rewrite lookup_take_lt by lia. rewrite lookup_drop.
  by rewrite Nat.add_0_r.
Qed.

(** Zero is the least distance among the atom pairs of one residue, an
    atom paired with itself included. *)
Lemma self_dists_least (coords : list coord) (r : Z * Z) :
  0 ≤ r.1 → r.1 ≤ r.2 → r.2 < Z.of_nat (length coords) →
  Forall (λ p, finite_coord p = true) (atoms coords r) →
  is_least 0%float (pair_dists coords coords r r).
Proof.
  intros H0 H1 H2 Hfin. destruct (atoms_nonempty coords r) as [p Hp]; [done..|].
  split.
  - apply elem_of_pair_dists. exists p, p. split_and!; [done..|].
    symmetry. apply cur_dist_diag. by apply (proj1 (Forall_forall _ _) Hfin).
  - intros x Hx Hnan. apply elem_of_pair_dists in Hx as (p' & q' & _ & _ & ->).
    by apply cur_dist_nonneg.
Qed.

(** * The kernel's contract *)

(** C1 (as stated, at the spec's scenario): the claim expects the distance
    between the two atoms of residue A, 1.0, on the diagonal of the
    symmetric map; the kernel leaves the initial 0.0 there. *)
Lemma C1_counterexample :
  cur_dist (0, 0, 0)%float (1, 0, 0)%float = 1%float ∧
  ∃ D, _distances scenario_ranges scenario_coords
         scenario_ranges scenario_coords true = Ok D
       ∧ mget D 0 0 = Ok 0%float
       ∧ mget D 0 0 ≠ Ok 1%float.
Proof.
  split; [by vm_compute|]. exists [[0; 2]; [2; 0]]%float.
  split_and!; [by vm_compute|by vm_compute|].
  intros [=].
Qed.

(** C1 (amended): in a symmetric map of a chain whose ranges lie inside
    the coordinate array, every diagonal entry is the initial zero of the
    output matrix, copied onto itself; for a residue with at least one
    atom and finite coordinates, zero is the least distance over its atom
    pairs when an atom is paired with itself too. *)
Theorem C1_diagonal_is_initial_zero (residues : atom_ranges)
    (coords : list coord) :
  in_bounds residues coords →
  ∃ D, _distances residues coords residues coords true = Ok D ∧
    ∀ (i : nat) range_i, residues !! i = Some range_i →
      mget D i i = Ok 0%float ∧
      (range_i.1 ≤ range_i.2 →
       Forall (λ p, finite_coord p = true) (atoms coords range_i) →
       is_least 0%float (pair_dists coords coords range_i range_i)).
Proof.
  intros Hb.
  destruct (distances_entries residues coords residues coords true Hb Hb)
    as (D & HD & Hget); [done|].
  exists D. split; [done|]. intros i range_i Hi. split.
  - rewrite Hget. apply lookup_lt_Some in Hi as Hlt.
    rewrite decide_True by done. unfold entry.
    by rewrite Nat.leb_refl, Nat.eqb_refl.
  - intros Hne Hfin. destruct (in_bounds_lookup _ _ _ _ Hb Hi).
    by apply self_dists_least.
Qed.

(** The amended C1 on the spec's two-residue chain. *)
Lemma C1_witness :
  ∃ D, _distances scenario_ranges scenario_coords
         scenario_ranges scenario_coords true = Ok D ∧
    ∀ (i : nat) range_i, scenario_ranges !! i = Some range_i →
      mget D i i = Ok 0%float ∧
      (range_i.1 ≤ range_i.2 →
       Forall (λ p, finite_coord p = true) (atoms scenario_coords range_i) →
       is_least 0%float
         (pair_dists scenario_coords scenario_coords range_i range_i)).
Proof.
  apply (C1_diagonal_is_initial_zero scenario_ranges scenario_coords).
  apply in_boundsb_correct. reflexivity.
Defined.

(** C2 (as stated, on residues farther apart than the initial value): the
    only atom pair is at distance 2,000,000, yet the cell holds 1,000,000,
    which is not the least (nor any) atom-pair distance. *)
Lemma C2_counterexample :
  in_bounds far_ranges far_coords_i ∧ in_bounds far_ranges far_coords_j ∧
  _distances far_ranges far_coords_i far_ranges far_coords_j false
    = Ok [[1000000%float]] ∧
  pair_dists far_coords_i far_coords_j (0, 0) (0, 0) = [2000000%float] ∧
  ¬ is_least 1000000%float [2000000%float].
Proof.
  split_and!; try (apply in_boundsb_correct; reflexivity); try by vm_compute.
  intros [Hin _]. apply list_elem_of_singleton in Hin.
  by apply (f_equal Prim2SF) in Hin.
Qed.

(** C2 (amended): for an asymmetric call whose ranges lie inside the
    coordinate arrays, every entry [D[i,j]] is the least distance over the
    atom pairs of residues [i] and [j], provided some atom pair of the two
    residues is at most 1,000,000 apart. *)
Theorem C2_min_atom_distance (residues_i : atom_ranges) (coords_i : list coord)
    (residues_j : atom_ranges) (coords_j : list coord) :
  in_bounds residues_i coords_i → in_bounds residues_j coords_j →
  ∃ D, _distances residues_i coords_i residues_j coords_j false = Ok D ∧
    ∀ (i j : nat) range_i range_j,
      residues_i !! i = Some range_i → residues_j !! j = Some range_j →
      ∃ v, mget D i j = Ok v ∧
        ((∃ x, x ∈ pair_dists coords_i coords_j range_i range_j
               ∧ (x <=? LARGE_DIST)%float = true) →
         is_least v (pair_dists coords_i coords_j range_i range_j)).
Proof.
  intros Hi Hj.
  destruct (distances_entries residues_i coords_i residues_j coords_j false
              Hi Hj) as (D & HD & Hget); [done|].
  exists D. split; [done|]. intros i j range_i range_j Hri Hrj.
  eexists. split.
  - rewrite Hget. apply lookup_lt_Some in Hri as ?.
    apply lookup_lt_Some in Hrj as ?. rewrite decide_True by done.
    unfold entry. simpl.
    by rewrite (list_lookup_total_correct _ _ _ Hri),
               (list_lookup_total_correct _ _ _ Hrj).
  - intros (x & Hx & Hle). by eapply min_atom_dist_near.
Qed.

(** The amended C2 on the spec's two-residue chain, asymmetric call. *)
Lemma C2_witness :
  ∃ D, _distances scenario_ranges scenario_coords
         scenario_ranges scenario_coords false = Ok D ∧
    ∀ (i j : nat) range_i range_j,
      scenario_ranges !! i = Some range_i →
      scenario_ranges !! j = Some range_j →
      ∃ v, mget D i j = Ok v ∧
        ((∃ x, x ∈ pair_dists scenario_coords scenario_coords range_i range_j
               ∧ (x <=? LARGE_DIST)%float = true) →
         is_least v (pair_dists scenario_coords scenario_coords range_i range_j)).
Proof.
  apply (C2_min_atom_distance scenario_ranges scenario_coords
           scenario_ranges scenario_coords);
    apply in_boundsb_correct; reflexivity.
Defined.

(** C10: every cell the kernel computes from atom pairs (all cells of an
    asymmetric map, the cells above the diagonal of a symmetric one) is
    the running minimum started at 1,000,000: the least of 1,000,000 and
    the atom-pair distances; when every atom pair is farther apart than
    1,000,000 the cell holds exactly 1,000,000. *)
Theorem C10_running_minimum_starts_at_large_dist (residues_i : atom_ranges)
    (coords_i : list coord) (residues_j : atom_ranges) (coords_j : list coord)
    (symmetric : bool) :
  in_bounds residues_i coords_i → in_bounds residues_j coords_j →
  (symmetric = true → (length residues_i ≤ length residues_j)%nat) →
  LARGE_DIST = 1000000%float ∧
  ∃ D, _distances residues_i coords_i residues_j coords_j symmetric = Ok D ∧
    ∀ (i j : nat) range_i range_j,
      residues_i !! i = Some range_i → residues_j !! j = Some range_j →
      symmetric && (j <=? i)%nat = false →
      ∃ v, mget D i j = Ok v ∧
        v = fold_left pymin (pair_dists coords_i coords_j range_i range_j)
              LARGE_DIST ∧
        is_least v (LARGE_DIST :: pair_dists coords_i coords_j range_i range_j) ∧
        ((∀ x, x ∈ pair_dists coords_i coords_j range_i range_j →
               (LARGE_DIST <? x)%float = true) → v = LARGE_DIST).
Proof.
  intros Hi Hj Hsq. split; [done|].
  destruct (distances_entries residues_i coords_i residues_j coords_j symmetric
              Hi Hj Hsq) as (D & HD & Hget).
  exists D. split; [done|]. intros i j range_i range_j Hri Hrj Hcomputed.
  exists (min_atom_dist coords_i coords_j range_i range_j). split_and!.
  - rewrite Hget. apply lookup_lt_Some in Hri as ?.
    apply lookup_lt_Some in Hrj as ?. rewrite decide_True by done.
    unfold entry. rewrite Hcomputed.
    by rewrite (list_lookup_total_correct _ _ _ Hri),
               (list_lookup_total_correct _ _ _ Hrj).
  - done.
  - apply min_atom_dist_least.
  - apply min_atom_dist_far.
Qed.

(** C10 on the two residues two million units apart. *)
Lemma C10_witness :
  LARGE_DIST = 1000000%float ∧
  ∃ D, _distances far_ranges far_coords_i far_ranges far_coords_j false = Ok D ∧
    ∀ (i j : nat) range_i range_j,
      far_ranges !! i = Some range_i → far_ranges !! j = Some range_j →
      false && (j <=? i)%nat = false →
      ∃ v, mget D i j = Ok v ∧
        v = fold_left pymin (pair_dists far_coords_i far_coords_j range_i range_j)
              LARGE_DIST ∧
        is_least v
          (LARGE_DIST :: pair_dists far_coords_i far_coords_j range_i range_j) ∧
        ((∀ x, x ∈ pair_dists far_coords_i far_coords_j range_i range_j →
               (LARGE_DIST <? x)%float = true) → v = LARGE_DIST).
Proof.
  apply (C10_running_minimum_starts_at_large_dist
           far_ranges far_coords_i far_ranges far_coords_j false).
  - apply in_boundsb_correct. reflexivity.
  - apply in_boundsb_correct. reflexivity.
  - discriminate.
Defined.

(** * The distance map's contract *)

Import DistanceMap.

Lemma last_index_None (x : pyval) (l : list pyval) :
  last_index x l = None → ∀ n, l !! n ≠ Some x.
Proof.
  induction l as [|y l IH]; simpl; [done|].
  destruct (last_index x l); [done|]. case_decide as Hy; [done|].
  intros _ [|n]; simpl; [congruence|by apply IH].
Qed.

(** [last_index] finds the last occurrence. *)
Lemma last_index_spec (x : pyval) (l : list pyval) (k : nat) :
  last_index x l = Some k ↔
  l !! k = Some x ∧ ∀ k', (k < k')%nat → l !! k' ≠ Some x.
Proof.
  revert k. induction l as [|y l IH]; intros k; simpl.
  - split; [done|]. by intros [? _].
  - destruct (last_index x l) as [n|] eqn:E.
    + destruct (proj1 (IH n) eq_refl) as [Hn Hlast]. split.
      * intros [= <-]. split; [done|].
        intros [|k'] Hk'; [lia|]. simpl. apply Hlast. lia.
      * intros [Hk Hlast']. destruct k as [|k].
        -- exfalso. by apply (Hlast' (S n)); [lia|].
        -- assert (Some n = Some k) as [= ->]; [|done].
           apply IH. split; [done|].
           intros k' Hk'. apply (Hlast' (S k')). lia.
    + pose proof (last_index_None x l E) as Hnone. split.
      * case_decide as Hy; [|done]. intros [= <-]. subst y. split; [done|].
        intros [|k'] Hk'; [lia|]. simpl. apply Hnone.
      * intros [Hk _]. destruct k as [|k]; simpl in Hk.
        -- injection Hk as ->. by rewrite decide_True.
        -- by apply Hnone in Hk.
Qed.

Lemma fold_insert_last (x : pyval) (l : list pyval) (g : nat → nat)
    (m : gmap pyval nat) :
  fold_left (λ m p, <[p.2 := p.1]> m) (imap (λ i a, (g i, a)) l) m !! x
  = match last_index x l with
    | Some k => Some (g k)
    | None => m !! x
    end.
Proof.
  revert g m. induction l as [|y l IH]; intros g m; [done|].
  rewrite imap_cons. simpl.
  change (imap ((λ i a, (g i, a)) ∘ S) l) with (imap (λ i a, (g (S i), a)) l).
  rewrite (IH (λ i, g (S i))). destruct (last_index x l); [done|].
  case_decide as Hy.
  - subst y. by rewrite lookup_insert_eq.
  - by rewrite lookup_insert_ne.
Qed.

(** The dict built from [enumerate] keeps, for each identifier, the
    position of its last occurrence. *)
Lemma id_map_last (ids : list pyval) (x : pyval) :
  id_map ids !! x = last_index x ids.
Proof.
  unfold id_map, enumerate. rewrite (fold_insert_last x ids (λ i, i)).
  by destruct (last_index x ids).
Qed.

Lemma dist_missing (self : t) (i j : pyval) :
  id_map_i self !! PStr (str i) = None ∨ id_map_j self !! PStr (str j) = None →
  (∃ msg, dist self i j true = Raise (KeyError msg)) ∧
  dist self i j false = Ok nan.
Proof.
  unfold dist. intros [Hi|Hj].
  - rewrite Hi. eauto.
  - rewrite Hj. destruct (id_map_i self !! PStr (str i)); eauto.
Qed.

Lemma dist_present (self : t) (i j : pyval) (index_i index_j : nat)
    (raise_na : bool) :
  id_map_i self !! PStr (str i) = Some index_i →
  id_map_j self !! PStr (str j) = Some index_j →
  dist self i j raise_na = mget (dist_matrix self) index_i index_j.
Proof. unfold dist. by intros -> ->. Qed.

(** C5: a lookup whose first identifier (as a string) is not a key of the
    first axis, or whose second is not a key of the second axis, raises
    [KeyError] under [raise_na=True] and returns not-a-number under
    [raise_na=False]; when both are keys it returns
    [dist_matrix[index_i, index_j]]. *)
Theorem C5_dist_lookup (self : t) (i j : pyval) :
  (id_map_i self !! PStr (str i) = None ∨ id_map_j self !! PStr (str j) = None →
   (∃ msg, dist self i j true = Raise (KeyError msg)) ∧
   dist self i j false = Ok nan) ∧
  (∀ index_i index_j,
     id_map_i self !! PStr (str i) = Some index_i →
     id_map_j self !! PStr (str j) = Some index_j →
     ∀ raise_na,
       dist self i j raise_na = mget (dist_matrix self) index_i index_j).
Proof.
  split.
  - apply dist_missing.
  - intros index_i index_j Hi Hj raise_na. by apply dist_present.
Qed.

(** C7: the subscript [self[i, j]] is [dist(i, j, raise_na=True)]: the
    same outcome in every case, a [KeyError] when an identifier is
    missing, and then never the not-a-number sentinel. *)
Theorem C7_getitem_is_raising_dist (self : t) (i j : pyval) :
  __getitem__ self [i; j] = dist self i j true ∧
  (id_map_i self !! PStr (str i) = None ∨ id_map_j self !! PStr (str j) = None →
   (∃ msg, __getitem__ self [i; j] = Raise (KeyError msg)) ∧
   __getitem__ self [i; j] ≠ Ok nan).
Proof.
  split; [done|]. intros Hmissing. simpl.
  destruct (dist_missing self i j Hmissing) as [[msg Hraise] _].
  rewrite Hraise. split; [by exists msg|done].
Qed.

(** C8: [contacts] raises [NotImplementedError] whatever its arguments and
    leaves the map as it was; [aggregate], which is declared without
    parameters, fails on every method call (with [TypeError], the
    receiver being one argument too many) and raises
    [NotImplementedError] when called without any argument; neither ever
    returns normally. *)
Theorem C8_stubs_fail (self : t) (max_dist : float) (min_dist : option float)
    (args : list arg) :
  contacts self max_dist min_dist = (self, Raise NotImplementedError) ∧
  call_aggregate self args = (self, Raise TypeError) ∧
  aggregate [] = Raise NotImplementedError ∧
  (∀ v, (contacts self max_dist min_dist).2 ≠ Ok v) ∧
  (∀ args' v, aggregate args' ≠ Ok v).
Proof.
  split_and!; try done. intros [|a args'] v; done.
Qed.

Lemma init_Ok (residues_i residues_j : DataFrame) (dist_matrix : matrix)
    (symmetric : bool) (self : t) :
  __init__ residues_i residues_j dist_matrix symmetric = Ok self →
  ∃ ids_i ids_j,
    column residues_i "id" = Some ids_i ∧ column residues_j "id" = Some ids_j ∧
    self = mk residues_i residues_j dist_matrix symmetric
             (id_map ids_i) (id_map ids_j).
Proof.
  unfold __init__, ids.
  destruct (column residues_i "id") as [ids_i|]; [|done].
  destruct (column residues_j "id") as [ids_j|]; [|done].
  intros [= <-]. by exists ids_i, ids_j.
Qed.

(** C9: the constructor maps every identifier of the [id] column to the
    position of its last occurrence in the table, duplicated or not, and a
    lookup reads the matrix at those positions. *)
Theorem C9_duplicate_ids_last_wins (residues_i residues_j : DataFrame)
    (dist_matrix : matrix) (symmetric : bool) (self : t) :
  __init__ residues_i residues_j dist_matrix symmetric = Ok self →
  ∃ ids_i ids_j,
    column residues_i "id" = Some ids_i ∧ column residues_j "id" = Some ids_j ∧
    (∀ x (k : nat), ids_i !! k = Some x →
       (∀ k', (k < k')%nat → ids_i !! k' ≠ Some x) →
       id_map_i self !! x = Some k) ∧
    (∀ x (k : nat), ids_j !! k = Some x →
       (∀ k', (k < k')%nat → ids_j !! k' ≠ Some x) →
       id_map_j self !! x = Some k) ∧
    (∀ (a b : pyval) (k_a k_b : nat) raise_na,
       ids_i !! k_a = Some (PStr (str a)) →
       (∀ k', (k_a < k')%nat → ids_i !! k' ≠ Some (PStr (str a))) →
       ids_j !! k_b = Some (PStr (str b)) →
       (∀ k', (k_b < k')%nat → ids_j !! k' ≠ Some (PStr (str b))) →
       dist self a b raise_na = mget dist_matrix k_a k_b).
Proof.
  intros Hinit. apply init_Ok in Hinit as (ids_i & ids_j & Hi & Hj & ->).
  exists ids_i, ids_j. split_and!; [done|done|..].
  - intros x k Hk Hlast. simpl. rewrite id_map_last.
    by apply last_index_spec.
  - intros x k Hk Hlast. simpl. rewrite id_map_last.
    by apply last_index_spec.
  - intros a b k_a k_b raise_na Ha Hla Hb Hlb.
    apply dist_present; simpl; rewrite id_map_last; by apply last_index_spec.
Qed.

(** C9 on the table whose identifier [7] occurs twice. *)
Lemma C9_witness :
  ∃ ids_i ids_j,
    column duplicated_residues "id" = Some ids_i ∧
    column duplicated_residues "id" = Some ids_j ∧
    (∀ x (k : nat), ids_i !! k = Some x →
       (∀ k', (k < k')%nat → ids_i !! k' ≠ Some x) →
       id_map [PStr "7"; PStr "8"; PStr "7"] !! x = Some k) ∧
    (∀ x (k : nat), ids_j !! k = Some x →
       (∀ k', (k < k')%nat → ids_j !! k' ≠ Some x) →
       id_map [PStr "7"; PStr "8"; PStr "7"] !! x = Some k) ∧
    (∀ (a b : pyval) (k_a k_b : nat) raise_na,
       ids_i !! k_a = Some (PStr (str a)) →
       (∀ k', (k_a < k')%nat → ids_i !! k' ≠ Some (PStr (str a))) →
       ids_j !! k_b = Some (PStr (str b)) →
       (∀ k', (k_b < k')%nat → ids_j !! k' ≠ Some (PStr (str b))) →
       dist (mk duplicated_residues duplicated_residues duplicated_matrix true
               (id_map [PStr "7"; PStr "8"; PStr "7"])
               (id_map [PStr "7"; PStr "8"; PStr "7"]))
            a b raise_na
       = mget duplicated_matrix k_a k_b).
Proof.
  apply (C9_duplicate_ids_last_wins duplicated_residues duplicated_residues
           duplicated_matrix true
           (mk duplicated_residues duplicated_residues duplicated_matrix true
              (id_map [PStr "7"; PStr "8"; PStr "7"])
              (id_map [PStr "7"; PStr "8"; PStr "7"]))).
  reflexivity.
Defined.

(** On the table with the identifier [7] at rows 0 and 2, a lookup of [7]
    reads row 2. *)
Example duplicated_lookup :
  (self ← __init__ duplicated_residues duplicated_residues duplicated_matrix
            true;
   dist self (PInt 7) (PStr "8") true) = Ok 7%float.
Proof. by vm_compute. Qed.

(** ** Maps computed from chains *)

Lemma positional_index (coords : list atom) (a : atom) :
  positional coords → a ∈ coords →
  0 ≤ atom_index a < Z.of_nat (length coords).
Proof.
  intros Hpos Ha. apply list_elem_of_lookup in Ha as [n Hn].
  assert ((atom_index <$> coords) !! n = Some (atom_index a)) as Hidx
    by (by rewrite list_lookup_fmap, Hn).
  apply lookup_lt_Some in Hn. rewrite Hpos in Hidx.
  rewrite list_lookup_fmap, lookup_seq_lt in Hidx by done.
  injection Hidx as <-. lia.
Qed.

(** With positional labels every extracted range lies inside the
    coordinate array. *)
Lemma extract_in_bounds (coords : list atom) :
  positional coords →
  in_bounds (_extract_coords coords).1 (_extract_coords coords).2.
Proof.
  intros Hpos. unfold _extract_coords, in_bounds. simpl.
  rewrite length_fmap. apply Forall_forall. intros r Hr.
  apply list_elem_of_omap in Hr as (k & _ & Hk). unfold first_last in Hk.
  destruct (head _) as [a|] eqn:Ha; [|done].
  destruct (last _) as [b|] eqn:Hb; [|done]. injection Hk as <-.
  apply head_Some_elem_of, list_elem_of_filter in Ha as [_ Ha].
  apply last_Some_elem_of, list_elem_of_filter in Hb as [_ Hb].
  pose proof (positional_index coords a Hpos Ha).
  pose proof (positional_index coords b Hpos Hb). simpl. lia.
Qed.

Lemma from_coords_symmetric (chain_i : Chain) (self : t) :
  from_coords chain_i None = Ok self →
  ∃ ids,
    column (chain_residues chain_i) "id" = Some ids ∧
    _distances (_extract_coords (chain_coords chain_i)).1
               (_extract_coords (chain_coords chain_i)).2
               (_extract_coords (chain_coords chain_i)).1
               (_extract_coords (chain_coords chain_i)).2 true
      = Ok (dist_matrix self) ∧
    self = mk (chain_residues chain_i) (chain_residues chain_i)
             (dist_matrix self) true (id_map ids) (id_map ids).
Proof.
  unfold from_coords.
  destruct (_extract_coords (chain_coords chain_i)) as [ranges_i coords_i].
  simpl. intros H. apply bind_Ok in H as (D & HD & Hinit).
  apply init_Ok in Hinit as (ids_i & ids_j & Hi & Hj & ->).
  rewrite Hi in Hj. injection Hj as <-. by exists ids_i.
Qed.

Lemma from_coords_asymmetric (chain_i chain_j : Chain) (self : t) :
  from_coords chain_i (Some chain_j) = Ok self →
  ∃ ids_i ids_j,
    column (chain_residues chain_i) "id" = Some ids_i ∧
    column (chain_residues chain_j) "id" = Some ids_j ∧
    _distances (_extract_coords (chain_coords chain_i)).1
               (_extract_coords (chain_coords chain_i)).2
               (_extract_coords (chain_coords chain_j)).1
               (_extract_coords (chain_coords chain_j)).2 false
      = Ok (dist_matrix self) ∧
    self = mk (chain_residues chain_i) (chain_residues chain_j)
             (dist_matrix self) false (id_map ids_i) (id_map ids_j).
Proof.
  unfold from_coords.
  destruct (_extract_coords (chain_coords chain_i)) as [ranges_i coords_i].
  destruct (_extract_coords (chain_coords chain_j)) as [ranges_j coords_j].
  simpl. intros H. apply bind_Ok in H as (D & HD & Hinit).
  apply init_Ok in Hinit as (ids_i & ids_j & Hi & Hj & ->).
  by exists ids_i, ids_j.
Qed.

Lemma from_coords_total (chain_i : Chain) (chain_j : option Chain) :
  well_formed chain_i → from_option well_formed True chain_j →
  ∃ self, from_coords chain_i chain_j = Ok self.
Proof.
  intros [Hpos_i [ids_i Hids_i]] Hj. unfold from_coords.
  pose proof (extract_in_bounds _ Hpos_i) as Hb_i.
  destruct (_extract_coords (chain_coords chain_i)) as [ranges_i coords_i].
  destruct chain_j as [chain_j|]; simpl in Hj.
  - destruct Hj as [Hpos_j [ids_j Hids_j]].
    pose proof (extract_in_bounds _ Hpos_j) as Hb_j.
    destruct (_extract_coords (chain_coords chain_j)) as [ranges_j coords_j].
    simpl in *.
    destruct (distances_entries ranges_i coords_i ranges_j coords_j false
                Hb_i Hb_j) as (D & -> & _); [done|].
    simpl. unfold __init__, ids. rewrite Hids_i, Hids_j. simpl. eauto.
  - simpl in *.
    destruct (distances_entries ranges_i coords_i ranges_i coords_i true
                Hb_i Hb_i) as (D & -> & _); [done|].
    simpl. unfold __init__, ids. rewrite Hids_i. simpl. eauto.
Qed.

(** C6: without a second chain the map is symmetric, both residue tables
    are the chain's and the matrix is the kernel's result on the chain's
    ranges and coordinates for both axes; with a second chain the map is
    asymmetric.  A well-formed chain (pair) always yields a map. *)
Theorem C6_from_coords (chain_i : Chain) :
  (∀ self, from_coords chain_i None = Ok self →
     symmetric self = true ∧
     residues_i self = chain_residues chain_i ∧
     residues_j self = chain_residues chain_i ∧
     _distances (_extract_coords (chain_coords chain_i)).1
                (_extract_coords (chain_coords chain_i)).2
                (_extract_coords (chain_coords chain_i)).1
                (_extract_coords (chain_coords chain_i)).2 true
       = Ok (dist_matrix self)) ∧
  (∀ chain_j self, from_coords chain_i (Some chain_j) = Ok self →
     symmetric self = false ∧
     residues_i self = chain_residues chain_i ∧
     residues_j self = chain_residues chain_j ∧
     _distances (_extract_coords (chain_coords chain_i)).1
                (_extract_coords (chain_coords chain_i)).2
                (_extract_coords (chain_coords chain_j)).1
                (_extract_coords (chain_coords chain_j)).2 false
       = Ok (dist_matrix self)) ∧
  (well_formed chain_i → ∃ self, from_coords chain_i None = Ok self) ∧
  (∀ chain_j, well_formed chain_i → well_formed chain_j →
     ∃ self, from_coords chain_i (Some chain_j) = Ok self).
Proof.
  split_and!.
  - intros self H.
    apply from_coords_symmetric in H as (ids & _ & HD & Hself).
    split_and!; [by rewrite Hself..|done].
  - intros chain_j self H.
    apply from_coords_asymmetric in H as (ids_i & ids_j & _ & _ & HD & Hself).
    split_and!; [by rewrite Hself..|done].
  - intros Hwf. by apply from_coords_total.
  - intros chain_j Hi Hj. by apply from_coords_total.
Qed.

(** The spec's scenarios, from the chains to the lookups. *)
Example scenario_map :
  (self ← from_coords scenario_chain None;
   mret (symmetric self, dist_matrix self,
         dist self (PStr "A") (PStr "B") true,
         dist self (PStr "A") (PStr "A") true,
         dist self (PStr "B") (PStr "B") true))
  = Ok (true, [[0; 2]; [2; 0]], Ok 2, Ok 0, Ok 0)%float.
Proof. by vm_compute. Qed.

Example asymmetric_map :
  (self ← from_coords chain_origin (Some chain_above);
   mret (symmetric self, dist_matrix self,
         dist self (PStr "X") (PStr "Y") true))
  = Ok (false, [[4]], Ok 4)%float.
Proof. by vm_compute. Qed.

(** ** Symmetry *)

Lemma stored_symmetric residues_i coords_i residues_j coords_j (i j : nat) :
  stored residues_i coords_i residues_j coords_j true i j
  = stored residues_i coords_i residues_j coords_j true j i.
Proof.
  unfold stored. simpl.
  destruct (Nat.leb_spec j i), (Nat.leb_spec i j),
           (Nat.eqb_spec j i), (Nat.eqb_spec i j); try done; lia.
Qed.

Lemma stored_not_nan residues_i coords_i residues_j coords_j symmetric
    (i j : nat) :
  PrimFloat.is_nan (stored residues_i coords_i residues_j coords_j symmetric i j)
  = false.
Proof.
  assert (∀ i j, PrimFloat.is_nan
            (looped residues_i coords_i residues_j coords_j i j) = false) as H.
  { intros i' j'. unfold looped.
    destruct (atom_pair_loop _ _ _ _) as [v|] eqn:E; [|done].
    by eapply atom_pair_loop_not_nan. }
  unfold stored.
  destruct (symmetric && (j <=? i)%nat); [destruct (j =? i)%nat; [done|]|];
    apply H.
Qed.

Lemma not_nan_eqb (v : float) :
  PrimFloat.is_nan v = false → (v =? v)%float = true.
Proof. unfold PrimFloat.is_nan. by destruct (v =? v)%float. Qed.

(** Whatever its inputs, a matrix the symmetric kernel returns equals its
    transpose wherever both cells exist, and holds numbers only. *)
Lemma distances_symmetric residues_i coords_i residues_j coords_j D :
  _distances residues_i coords_i residues_j coords_j true = Ok D →
  ∀ i j v, mget D i j = Ok v →
    (v =? v)%float = true ∧ ∀ w, mget D j i = Ok w → w = v.
Proof.
  intros HD i j v.
  rewrite !(distances_returned _ _ _ _ _ _ HD).
  case_decide; [|done]. intros [= <-]. split.
  - apply not_nan_eqb, stored_not_nan.
  - intros w. case_decide; [|done]. intros [= <-]. apply stored_symmetric.
Qed.


(** ** Persistence *)

(** The matrix read back is the matrix written. *)
Lemma roundtrip_matrix (self reloaded : t) (fs : gmap string file)
    (filename : string) :
  from_file (to_file self fs filename) filename = Ok reloaded →
  dist_matrix reloaded = dist_matrix self.
Proof.
  unfold from_file, to_file. intros H.
  apply bind_Ok in H as (residues & _ & H).
  apply bind_Ok in H as (D & HD & H).
  unfold np_load in HD. rewrite lookup_insert_eq in HD. injection HD as <-.
  destruct (decide _); apply init_Ok in H as (? & ? & _ & _ & ->); done.
Qed.

Example numbered_map_init :
  __init__ numbered_residues numbered_residues [[0; 2]; [2; 0]]%float true
  = Ok numbered_map.
Proof. reflexivity. Qed.

(** C4 (the code departs from the claim): a symmetric map whose residue
    identifiers are the strings [1] and [2] is written and read back.  The
    matrix and the symmetry flag come back unchanged, but [from_file]
    declares the string type for [seqres_id] and [coord_id] only, so the
    [id] column is read back as integers: the residue table differs, the
    lookup keys are integers, and the lookup that succeeded on the
    original raises [KeyError] on the reloaded map. *)
Theorem C4_roundtrip_retypes_ids :
  from_file (to_file numbered_map ∅ "map") "map" = Ok reloaded_map ∧
  dist_matrix reloaded_map = dist_matrix numbered_map ∧
  symmetric reloaded_map = symmetric numbered_map ∧
  column (residues_i numbered_map) "id" = Some [PStr "1"; PStr "2"] ∧
  column (residues_i reloaded_map) "id" = Some [PInt 1; PInt 2] ∧
  column (residues_i reloaded_map) "coord_id" = Some [PStr "1"; PStr "2"] ∧
  residues_i reloaded_map ≠ residues_i numbered_map ∧
  dist numbered_map (PStr "1") (PStr "2") true = Ok 2%float ∧
  dist reloaded_map (PStr "1") (PStr "2") true
    = Raise (KeyError "1 not contained in first axis of distance map").
Proof.
  split_and!; try (vm_compute; reflexivity). by intros [=].
Qed.

(** The spec's asymmetric scenario through the files: the table is
    written with an [axis] column holding [i] and [j], and, its
    identifiers not being integer literals, the map read back is the map
    written. *)
Example asymmetric_roundtrip :
  (self ← from_coords chain_origin (Some chain_above);
   mret (to_file self ∅ "pair" !! "pair.csv"))
  = Ok (Some (CsvFile [""; "id"; "axis"] [["0"; "X"; "i"]; ["0"; "Y"; "j"]])) ∧
  (self ← from_coords chain_origin (Some chain_above);
   from_file (to_file self ∅ "pair") "pair")
  = from_coords chain_origin (Some chain_above).
Proof. split; vm_compute; reflexivity. Qed.

(** * Further properties of the kernel and the map *)

(** ** Signs and the symmetry of the distance *)

Lemma binary_round_aux_unsigned m e l :
  sf_unsigned (binary_round_aux prec emax false m e l) = true.
Proof.
  pose proof (binary_round_aux_sign false m e l) as H.
  by destruct (binary_round_aux prec emax false m e l); try subst.
Qed.

Lemma SFmul_self_unsigned d : sf_unsigned (SFmul prec emax d d) = true.
Proof.
  destruct d as [s|s| |s m e]; simpl; [by destruct s|by destruct s|done|].
  replace (xorb s s) with false by (by destruct s).
  apply binary_round_aux_unsigned.
Qed.

Lemma SFadd_unsigned a b :
  sf_unsigned a = true → sf_unsigned b = true →
  sf_unsigned (SFadd prec emax a b) = true.
Proof.
  destruct a as [sa|sa| |sa ma ea], b as [sb|sb| |sb mb eb]; simpl;
    try destruct sa; try destruct sb; try done.
  intros _ _. unfold binary_normalize. simpl.
  unfold binary_round.
  destruct (shl_align _ _ _) as [mz ez]. apply binary_round_aux_unsigned.
Qed.

Lemma SFsqrt_unsigned a :
  sf_unsigned a = true → sf_unsigned (SFsqrt prec emax a) = true.
Proof.
  destruct a as [s|s| |s m e]; simpl; try destruct s; try done.
  intros _. destruct (SFsqrt_core_binary _ _ _ _) as [[mz ez] lz].
  apply binary_round_aux_unsigned.
Qed.

Lemma cur_dist_unsigned (p q : coord) : unsigned (cur_dist p q).
Proof.
  destruct p as [[x1 y1] z1], q as [[x2 y2] z2]. unfold unsigned, cur_dist.
  rewrite sqrt_spec. apply SFsqrt_unsigned.
  rewrite !add_spec, !mul_spec.
  repeat apply SFadd_unsigned; try apply SFmul_self_unsigned. done.
Qed.

(** Among unsigned numbers the order is antisymmetric. *)
Lemma SFleb_antisym x y :
  sf_unsigned x = true → sf_unsigned y = true →
  SFleb x y = true → SFleb y x = true → x = y.
Proof.
  unfold SFleb.
  destruct x as [sx|sx| |sx mx ex], y as [sy|sy| |sy my ey]; simpl;
    try destruct sx; try destruct sy; simpl; try done.
  intros _ _.
  change (Pos.compare_cont Eq mx my) with (Pos.compare mx my).
  change (Pos.compare_cont Eq my mx) with (Pos.compare my mx).
  destruct (Z.compare_spec ex ey), (Z.compare_spec ey ex); try done; try lia.
  destruct (Pos.compare_spec mx my), (Pos.compare_spec my mx);
    try done; try lia. by subst.
Qed.

Lemma leb_antisym (x y : float) :
  unsigned x → unsigned y →
  (x <=? y)%float = true → (y <=? x)%float = true → x = y.
Proof.
  unfold unsigned. rewrite !leb_spec. intros Hx Hy H1 H2.
  apply Prim2SF_inj. by apply SFleb_antisym.
Qed.

(** Squares do not see the sign; differences swap it. *)
Lemma SFmul_self_abs d :
  SFmul prec emax d d = SFmul prec emax (SFabs d) (SFabs d).
Proof.
  destruct d as [s|s| |s m e]; simpl; [by destruct s|by destruct s|done|].
  by replace (xorb s s) with false by (by destruct s).
Qed.

Lemma binary_round_abs s m e :
  SFabs (binary_round prec emax s m e) = SFabs (binary_round prec emax false m e).
Proof.
  unfold binary_round. destruct (shl_align _ _ _) as [mz ez].
  unfold binary_round_aux.
  destruct (shr_fexp prec emax (Z.pos mz) ez loc_Exact) as [mrs' e'].
  destruct (shr_fexp prec emax _ e' loc_Exact) as [mrs'' e''].
  destruct (shr_m mrs''); [done| |done].
  by destruct (e'' <=? emax - prec).
Qed.

Lemma binary_normalize_abs m e :
  SFabs (binary_normalize prec emax (- m) e false)
  = SFabs (binary_normalize prec emax m e false).
Proof.
  destruct m as [|p|p]; simpl; [done|..];
    by rewrite (binary_round_abs true).
Qed.

Lemma SFsub_abs a b :
  SFabs (SFsub prec emax a b) = SFabs (SFsub prec emax b a).
Proof.
  destruct a as [sa|sa| |sa ma ea], b as [sb|sb| |sb mb eb]; simpl;
    try destruct sa; try destruct sb; try done;
    rewrite (Z.min_comm eb ea); rewrite <- binary_normalize_abs; f_equal;
    f_equal; simpl; lia.
Qed.

Lemma sub_square (a b : float) :
  ((a - b) * (a - b) = (b - a) * (b - a))%float.
Proof.
  apply Prim2SF_inj. rewrite !mul_spec, !sub_spec. unfold SF64mul, SF64sub.
  rewrite SFmul_self_abs, (SFmul_self_abs (SFsub _ _ (Prim2SF b) (Prim2SF a))).
  by rewrite (SFsub_abs (Prim2SF a) (Prim2SF b)).
Qed.

(** The distance does not depend on the order of the two atoms. *)
Lemma cur_dist_comm (p q : coord) : cur_dist p q = cur_dist q p.
Proof.
  destruct p as [[x1 y1] z1], q as [[x2 y2] z2]. unfold cur_dist.
  by rewrite (sub_square x1 x2), (sub_square y1 y2), (sub_square z1 z2).
Qed.

(** ** The minimum does not depend on the order of the pairs *)

Lemma fold_pymin_number l a :
  PrimFloat.is_nan a = false → PrimFloat.is_nan (fold_left pymin l a) = false.
Proof.
  revert a. induction l as [|x l IH]; intros a Ha; simpl; [done|].
  by apply IH, pymin_not_nan.
Qed.

Lemma is_least_unique r r' (L L' : list float) :
  is_least r L → is_least r' L' → (∀ x, x ∈ L ↔ x ∈ L') →
  PrimFloat.is_nan r = false → PrimFloat.is_nan r' = false →
  (∀ x, x ∈ L → unsigned x) → r = r'.
Proof.
  intros [Hr Hle] [Hr' Hle'] Hsame Hn Hn' Hun.
  apply leb_antisym.
  - by apply Hun.
  - by apply Hun, Hsame.
  - apply Hle; [by apply Hsame|done].
  - apply Hle'; [by apply Hsame|done].
Qed.

Lemma pair_dists_swap coords_i coords_j range_i range_j x :
  x ∈ pair_dists coords_i coords_j range_i range_j ↔
  x ∈ pair_dists coords_j coords_i range_j range_i.
Proof.
  rewrite !elem_of_pair_dists. split; intros (p & q & Hp & Hq & ->);
    exists q, p; by rewrite (cur_dist_comm q p).
Qed.

Lemma pair_dists_unsigned coords_i coords_j range_i range_j x :
  x ∈ LARGE_DIST :: pair_dists coords_i coords_j range_i range_j → unsigned x.
Proof.
  intros [->|Hx]%elem_of_cons; [done|].
  apply elem_of_pair_dists in Hx as (p & q & _ & _ & ->).
  apply cur_dist_unsigned.
Qed.

(** Swapping the two residues does not change their minimum distance. *)
Lemma min_atom_dist_comm coords_i coords_j range_i range_j :
  min_atom_dist coords_i coords_j range_i range_j
  = min_atom_dist coords_j coords_i range_j range_i.
Proof.
  eapply is_least_unique.
  - apply min_atom_dist_least.
  - apply min_atom_dist_least.
  - intros x. rewrite !elem_of_cons. by rewrite pair_dists_swap.
  - by apply fold_pymin_number.
  - by apply fold_pymin_number.
  - apply pair_dists_unsigned.
Qed.

(** Within a residue of finite atoms the minimum distance is zero. *)
Lemma min_atom_dist_self (coords : list coord) (r : Z * Z) :
  0 ≤ r.1 → r.1 ≤ r.2 → r.2 < Z.of_nat (length coords) →
  Forall (λ p, finite_coord p = true) (atoms coords r) →
  min_atom_dist coords coords r r = 0%float.
Proof.
  intros H0 H1 H2 Hfin.
  pose proof (self_dists_least coords r H0 H1 H2 Hfin) as [Hin Hle].
  pose proof (min_atom_dist_least coords coords r r) as [Hm Hmle].
  apply leb_antisym.
  - by eapply pair_dists_unsigned.
  - done.
  - apply Hmle; [apply elem_of_cons; by right|done].
  - apply elem_of_cons in Hm as [->|Hm]; [done|].
    apply Hle; [done|]. by apply fold_pymin_number.
Qed.

(** ** Shape and range of a returned matrix *)

Lemma zeros_shape n m : has_shape n m (zeros n m).
Proof.
  unfold has_shape, zeros. rewrite length_replicate. split; [done|].
  apply Forall_replicate. by rewrite length_replicate.
Qed.

Lemma mset_shape n m d i j v d' :
  mset d i j v = Ok d' → has_shape n m d → has_shape n m d'.
Proof.
  unfold mset. destruct (d !! i) as [row|] eqn:Ei; [|done].
  case_decide; [|done]. intros [= <-] [Hlen Hrows]. split.
  - by rewrite length_insert.
  - apply Forall_insert; [done|]. rewrite length_insert.
    by apply (proj1 (Forall_lookup _ _) Hrows i).
Qed.

Lemma cell_step_shape residues_i coords_i residues_j coords_j symmetric
    n m i j d d' :
  cell_step residues_i coords_i residues_j coords_j symmetric i j d = Ok d' →
  has_shape n m d → has_shape n m d'.
Proof.
  unfold cell_step. destruct (symmetric && (j <=? i)%nat); intros H.
  - apply bind_Ok in H as (v & _ & H). by eapply mset_shape.
  - apply bind_Ok in H as (ra & _ & H). apply bind_Ok in H as (rb & _ & H).
    apply bind_Ok in H as (v & _ & H). by eapply mset_shape.
Qed.

Lemma distances_shape residues_i coords_i residues_j coords_j symmetric D :
  _distances residues_i coords_i residues_j coords_j symmetric = Ok D →
  has_shape (length residues_i) (length residues_j) D.
Proof.
  unfold _distances. intros H.
  eapply (for_each_preserves (has_shape _ _)); [|exact H|apply zeros_shape].
  clear. intros i d d' H.
  eapply (for_each_preserves (has_shape _ _)); [|exact H].
  clear. intros j d d'. apply cell_step_shape.
Qed.

(** Two matrices of one shape with the same cells are the same matrix. *)
Lemma matrix_ext n m (D D' : matrix) :
  has_shape n m D → has_shape n m D' →
  (∀ i j, mget D i j = mget D' i j) → D = D'.
Proof.
  intros [Hn Hm] [Hn' Hm'] Hget. apply list_eq_same_length with n; [done..|].
  intros i row row' Hi Hrow Hrow'.
  pose proof (proj1 (Forall_lookup _ _) Hm _ _ Hrow) as Hlen.
  pose proof (proj1 (Forall_lookup _ _) Hm' _ _ Hrow') as Hlen'.
  apply list_eq_same_length with m; [done..|].
  intros j v v' Hj Hv Hv'. specialize (Hget i j). unfold mget in Hget.
  rewrite Hrow, Hrow', Hv, Hv' in Hget. by injection Hget.
Qed.

Lemma atom_pair_loop_bounds coords_i coords_j range_i range_j v :
  atom_pair_loop coords_i coords_j range_i range_j = Ok v →
  (0 <=? v)%float = true ∧ (v <=? LARGE_DIST)%float = true.
Proof.
  unfold atom_pair_loop. intros H.
  eapply (for_each_preserves
            (λ m, (0 <=? m)%float = true ∧ (m <=? LARGE_DIST)%float = true));
    [|exact H|done].
  clear. intros a_i m m' H.
  eapply (for_each_preserves
            (λ m, (0 <=? m)%float = true ∧ (m <=? LARGE_DIST)%float = true));
    [|exact H].
  clear. intros a_j m m' H [H0 H1].
  apply bind_Ok in H as (p & _ & H). apply bind_Ok in H as (q & _ & [= <-]).
  unfold pymin. destruct (cur_dist p q <? m)%float eqn:E; [|done]. split.
  - apply cur_dist_nonneg. by eapply ltb_not_nan_l.
  - eapply leb_trans; [by apply ltb_leb|done].
Qed.

Lemma stored_bounds residues_i coords_i residues_j coords_j symmetric
    (i j : nat) :
  (0 <=? stored residues_i coords_i residues_j coords_j symmetric i j)%float
    = true ∧
  (stored residues_i coords_i residues_j coords_j symmetric i j
     <=? LARGE_DIST)%float = true.
Proof.
  assert (∀ i j,
    (0 <=? looped residues_i coords_i residues_j coords_j i j)%float = true ∧
    (looped residues_i coords_i residues_j coords_j i j <=? LARGE_DIST)%float
      = true) as H.
  { intros i' j'. unfold looped.
    destruct (atom_pair_loop _ _ _ _) as [v|] eqn:E; [|done].
    by eapply atom_pair_loop_bounds. }
  unfold stored.
  destruct (symmetric && (j <=? i)%nat); [destruct (j =? i)%nat; [done|]|];
    apply H.
Qed.

(** X1: whatever the ranges and coordinates, a matrix the kernel returns
    has one row per residue of the first axis and one column per residue
    of the second, and every cell is a number between 0 and 1,000,000:
    never not-a-number, never negative. *)
Theorem X1_returned_matrix_shape_and_range (residues_i : atom_ranges)
    (coords_i : list coord) (residues_j : atom_ranges) (coords_j : list coord)
    (symmetric : bool) (D : matrix) :
  _distances residues_i coords_i residues_j coords_j symmetric = Ok D →
  length D = length residues_i ∧
  Forall (λ row, length row = length residues_j) D ∧
  ∀ i j v, mget D i j = Ok v →
    (0 <=? v)%float = true ∧ (v <=? 1000000)%float = true.
Proof.
  intros HD. destruct (distances_shape _ _ _ _ _ _ HD) as [Hn Hm].
  split_and!; [done..|]. intros i j v.
  rewrite (distances_returned _ _ _ _ _ _ HD). case_decide; [|done].
  intros [= <-]. apply stored_bounds.
Qed.

(** X1 on the two-residue chain. *)
Lemma X1_witness :
  length [[0; 2]; [2; 0]]%float = length scenario_ranges ∧
  Forall (λ row, length row = length scenario_ranges) [[0; 2]; [2; 0]]%float ∧
  ∀ i j v, mget [[0; 2]; [2; 0]]%float i j = Ok v →
    (0 <=? v)%float = true ∧ (v <=? 1000000)%float = true.
Proof.
  apply (X1_returned_matrix_shape_and_range scenario_ranges scenario_coords
           scenario_ranges scenario_coords true).
  vm_compute. reflexivity.
Defined.

(** X2: swapping the two axes of an asymmetric call transposes the
    matrix: for ranges inside their coordinate arrays both calls return,
    and cell [i, j] of one is cell [j, i] of the other. *)
Theorem X2_swapping_axes_transposes (residues_i : atom_ranges)
    (coords_i : list coord) (residues_j : atom_ranges) (coords_j : list coord) :
  in_bounds residues_i coords_i → in_bounds residues_j coords_j →
  ∃ D D',
    _distances residues_i coords_i residues_j coords_j false = Ok D ∧
    _distances residues_j coords_j residues_i coords_i false = Ok D' ∧
    ∀ i j, mget D i j = mget D' j i.
Proof.
  intros Hi Hj.
  destruct (distances_entries residues_i coords_i residues_j coords_j false
              Hi Hj) as (D & HD & Hget); [done|].
  destruct (distances_entries residues_j coords_j residues_i coords_i false
              Hj Hi) as (D' & HD' & Hget'); [done|].
  exists D, D'. split_and!; [done..|]. intros i j. rewrite Hget, Hget'.
  repeat case_decide; try done; try lia. unfold entry. simpl.
  by rewrite min_atom_dist_comm.
Qed.

(** X2 on the two-residue chain against the far single atom. *)
Lemma X2_witness :
  ∃ D D',
    _distances scenario_ranges scenario_coords far_ranges far_coords_j false
      = Ok D ∧
    _distances far_ranges far_coords_j scenario_ranges scenario_coords false
      = Ok D' ∧
    ∀ i j, mget D i j = mget D' j i.
Proof.
  apply (X2_swapping_axes_transposes scenario_ranges scenario_coords
           far_ranges far_coords_j);
    apply in_boundsb_correct; reflexivity.
Defined.

Lemma atoms_finite (coords : list coord) (r : Z * Z) :
  Forall (λ p, finite_coord p = true) coords →
  Forall (λ p, finite_coord p = true) (atoms coords r).
Proof.
  intros H. unfold atoms. by apply Forall_take, Forall_drop.
Qed.

(** X3: for a chain whose ranges lie inside the coordinate array, whose
    residues all have at least one atom and whose coordinates are finite,
    the symmetric call, which copies the cells on and below the diagonal,
    returns exactly the matrix the asymmetric call computes cell by
    cell. *)
Theorem X3_symmetric_shortcut_is_exact (residues : atom_ranges)
    (coords : list coord) :
  in_bounds residues coords →
  Forall (λ r, r.1 ≤ r.2) residues →
  Forall (λ p, finite_coord p = true) coords →
  ∃ D, _distances residues coords residues coords true = Ok D ∧
       _distances residues coords residues coords false = Ok D.
Proof.
  intros Hb Hne Hfin.
  destruct (distances_entries residues coords residues coords true Hb Hb)
    as (D & HD & Hget); [done|].
  destruct (distances_entries residues coords residues coords false Hb Hb)
    as (D' & HD' & Hget'); [done|].
  exists D. split; [done|]. rewrite HD'. f_equal.
  eapply matrix_ext; [by eapply distances_shape..|].
  intros i j. rewrite Hget, Hget'. case_decide as Hin; [|done]. f_equal.
  destruct Hin as [Hi Hj]. unfold entry. simpl.
  destruct (Nat.leb_spec j i) as [Hle|Hlt]; [|done].
  destruct (Nat.eqb_spec j i) as [->|Hneq].
  - destruct (lookup_lt_is_Some_2 residues i Hi) as [r Hr].
    rewrite (list_lookup_total_correct _ _ _ Hr).
    destruct (in_bounds_lookup _ _ _ _ Hb Hr).
    rewrite min_atom_dist_self;
      [done|done| |done|by apply atoms_finite].
    exact (proj1 (Forall_lookup _ _) Hne _ _ Hr).
  - apply min_atom_dist_comm.
Qed.

(** X3 on the two-residue chain. *)
Lemma X3_witness :
  ∃ D, _distances scenario_ranges scenario_coords
         scenario_ranges scenario_coords true = Ok D ∧
       _distances scenario_ranges scenario_coords
         scenario_ranges scenario_coords false = Ok D.
Proof.
  apply (X3_symmetric_shortcut_is_exact scenario_ranges scenario_coords).
  - apply in_boundsb_correct. reflexivity.
  - repeat (constructor; [simpl; lia|]). constructor.
  - repeat (constructor; [reflexivity|]). constructor.
Defined.

Lemma range_empty a b : b ≤ a → range a b = [].
Proof. intros H. unfold range. by replace (Z.to_nat (b - a)) with 0%nat by lia. Qed.

Lemma atom_pair_loop_empty coords_i coords_j range_i range_j :
  range_i.2 < range_i.1 ∨ range_j.2 < range_j.1 →
  atom_pair_loop coords_i coords_j range_i range_j = Ok LARGE_DIST.
Proof.
  unfold atom_pair_loop. intros [H|H].
  - by rewrite (range_empty range_i.1) by lia.
  - rewrite (range_empty range_j.1) by lia. simpl.
    generalize LARGE_DIST. induction (range _ _) as [|a l IH]; [done|].
    intros m. simpl. apply IH.
Qed.

(** X4: a residue whose range is empty (last index below first) is at
    distance 1,000,000 from every residue: the atom loops do not run and
    the cell of an asymmetric map keeps the value the minimum starts
    from. *)
Theorem X4_empty_range_gives_large_dist (residues_i : atom_ranges)
    (coords_i : list coord) (residues_j : atom_ranges) (coords_j : list coord)
    (D : matrix) (i j : nat) range_i range_j :
  _distances residues_i coords_i residues_j coords_j false = Ok D →
  residues_i !! i = Some range_i → residues_j !! j = Some range_j →
  range_i.2 < range_i.1 ∨ range_j.2 < range_j.1 →
  mget D i j = Ok 1000000%float.
Proof.
  intros HD Hri Hrj Hempty.
  rewrite (distances_returned _ _ _ _ _ _ HD).
  apply lookup_lt_Some in Hri as ?. apply lookup_lt_Some in Hrj as ?.
  rewrite decide_True by done. unfold stored, looped. simpl.
  rewrite (list_lookup_total_correct _ _ _ Hri),
          (list_lookup_total_correct _ _ _ Hrj).
  by rewrite atom_pair_loop_empty.
Qed.

(** X4 on a residue without atoms against the two-residue chain. *)
Lemma X4_witness :
  mget [[1000000; 1000000]]%float 0 1 = Ok 1000000%float.
Proof.
  apply (X4_empty_range_gives_large_dist empty_ranges scenario_coords
           scenario_ranges scenario_coords [[1000000; 1000000]]%float
           0 1 (1, 0) (2, 2)).
  - vm_compute. reflexivity.
  - reflexivity.
  - reflexivity.
  - left. simpl. lia.
Defined.

(** ** Ranges extracted from a coordinate table *)

Lemma filter_all {A : Type} (P : A → Prop) `{∀ x, Decision (P x)} (l : list A) :
  Forall P l → filter P l = l.
Proof.
  induction 1 as [|x l Hx _ IH]; [done|].
  rewrite filter_cons, decide_True by done. by rewrite IH.
Qed.

Lemma filter_none {A : Type} (P : A → Prop) `{∀ x, Decision (P x)} (l : list A) :
  Forall (λ x, ¬ P x) l → filter P l = [].
Proof.
  induction 1 as [|x l Hx _ IH]; [done|].
  by rewrite filter_cons, decide_False.
Qed.

Lemma positional_lookup (coords : list atom) (n : nat) (a : atom) :
  positional coords → coords !! n = Some a → atom_index a = Z.of_nat n.
Proof.
  intros Hpos Hn.
  assert ((atom_index <$> coords) !! n = Some (atom_index a)) as Hidx
    by (by rewrite list_lookup_fmap, Hn).
  apply lookup_lt_Some in Hn. rewrite Hpos in Hidx.
  rewrite list_lookup_fmap, lookup_seq_lt in Hidx by done.
  by injection Hidx as <-.
Qed.

(** X5: in a coordinate table labelled by position, the atoms of a
    residue that stand together, [group], after [before] and ahead of
    [after], get the range from the position of the first to the position
    of the last, and that range cuts exactly the coordinates of [group]
    out of the coordinate array. *)
Theorem X5_contiguous_group_range (coords before group after : list atom)
    (k : Z) :
  positional coords →
  coords = before ++ group ++ after →
  group ≠ [] →
  Forall (λ a, residue_index a = k) group →
  Forall (λ a, residue_index a ≠ k) before →
  Forall (λ a, residue_index a ≠ k) after →
  let r := (Z.of_nat (length before),
            Z.of_nat (length before + length group) - 1) in
  first_last coords k = Some r ∧
  r ∈ (_extract_coords coords).1 ∧
  atoms (_extract_coords coords).2 r = xyz <$> group.
Proof.
  intros Hpos Hsplit Hne Hin Hbefore Hafter r.
  assert (filter (λ a, residue_index a = k) coords = group) as Hfilter.
  { rewrite Hsplit, !filter_app.
    rewrite (filter_none _ before), (filter_none _ after) by done.
    rewrite (filter_all _ group) by done. by rewrite app_nil_r. }
  assert (first_last coords k = Some r) as Hfl.
  { unfold first_last. rewrite Hfilter.
    destruct group as [|a g] eqn:Eg; [done|]. rewrite <- Eg in *.
    assert (head group = Some a) as -> by (by rewrite Eg).
    destruct (last group) as [b|] eqn:Hb;
      [|apply last_None in Hb; congruence].
    f_equal. unfold r. f_equal.
    - apply (positional_lookup coords); [done|].
      rewrite Hsplit, lookup_app_r by lia.
      rewrite Nat.sub_diag, Eg. done.
    - rewrite last_lookup in Hb.
      rewrite (positional_lookup coords (length before + pred (length group)) b);
        [|done|].
      + rewrite Eg. simpl. lia.
      + rewrite Hsplit, lookup_app_r by lia.
        rewrite lookup_app_l by (rewrite Eg; simpl; lia).
        rewrite <- Hb. f_equal. lia. }
  split_and!; [done| |].
  - unfold _extract_coords. simpl. apply list_elem_of_omap. exists k.
    split; [|done]. rewrite merge_sort_Permutation, elem_of_remove_dups.
    apply list_elem_of_fmap. destruct group as [|a g]; [done|].
    exists a. split; [by inversion Hin|]. rewrite Hsplit.
    apply elem_of_app. right. apply elem_of_app. left. by left.
  - unfold _extract_coords, atoms, r. simpl.
    replace (Z.to_nat (Z.of_nat (length before + length group) - 1 + 1
                       - Z.of_nat (length before))) with (length group) by lia.
    rewrite Nat2Z.id, Hsplit, !fmap_app.
    rewrite <- (length_fmap (λ a, (atom_x a, atom_y a, atom_z a)) before)
      at 1.
    rewrite drop_app_length.
    rewrite <- (length_fmap (λ a, (atom_x a, atom_y a, atom_z a)) group)
      at 1.
    by rewrite take_app_length.
Qed.

(** X5 on the first residue of the two-residue chain. *)
Lemma X5_witness :
  first_last (chain_coords scenario_chain) 1 = Some (0, 1) ∧
  (0, 1) ∈ (_extract_coords (chain_coords scenario_chain)).1 ∧
  atoms (_extract_coords (chain_coords scenario_chain)).2 (0, 1)
  = [(0, 0, 0); (1, 0, 0)]%float.
Proof.
  apply (X5_contiguous_group_range (chain_coords scenario_chain) []
           [mkAtom 0 0 0 0 1; mkAtom 1 1 0 0 1]%float
           [mkAtom 2 3 0 0 2]%float 1).
  - reflexivity.
  - reflexivity.
  - discriminate.
  - repeat (constructor; [reflexivity|]). constructor.
  - constructor.
  - repeat (constructor; [simpl; lia|]). constructor.
Defined.

Lemma omap_total_lookup {A B : Type} (f : A → option B) (l : list A) (n : nat) :
  Forall (λ x, is_Some (f x)) l → omap f l !! n = l !! n ≫= f.
Proof.
  intros H. revert n. induction H as [|x l [y Hy] _ IH]; intros n; [done|].
  simpl. rewrite Hy. destruct n as [|n]; simpl; [done|apply IH].
Qed.

Lemma omap_total_length {A B : Type} (f : A → option B) (l : list A) :
  Forall (λ x, is_Some (f x)) l → length (omap f l) = length l.
Proof.
  induction 1 as [|x l [y Hy] _ IH]; [done|]. simpl. rewrite Hy. simpl.
  f_equal. exact IH.
Qed.

Lemma first_last_is_Some (coords : list atom) (k : Z) :
  k ∈ residue_index <$> coords → is_Some (first_last coords k).
Proof.
  intros Hk. apply list_elem_of_fmap in Hk as (a & -> & Ha).
  unfold first_last.
  assert (a ∈ filter (λ a0, residue_index a0 = residue_index a) coords) as Hin
    by (by apply list_elem_of_filter).
  destruct (filter _ coords) as [|a0 g] eqn:E; [by apply elem_of_nil in Hin|].
  simpl. destruct (last (a0 :: g)) eqn:El; [eauto|].
  by apply last_None in El.
Qed.

(** X6: [_extract_coords] returns one coordinate triple per atom and one
    range per distinct residue index, the residue indices taken in
    ascending order whatever the order of the rows; the range of a residue
    holds the labels of its first and of its last row. *)
Theorem X6_one_range_per_residue_ascending (coords : list atom) :
  let ranges := (_extract_coords coords).1 in
  length (_extract_coords coords).2 = length coords ∧
  ∃ keys : list Z,
    StronglySorted Z.le keys ∧ NoDup keys ∧
    (∀ k, k ∈ keys ↔ ∃ a, a ∈ coords ∧ residue_index a = k) ∧
    length ranges = length keys ∧
    ∀ (n : nat) k, keys !! n = Some k →
      ∃ a b, head (filter (λ c, residue_index c = k) coords) = Some a ∧
             last (filter (λ c, residue_index c = k) coords) = Some b ∧
             ranges !! n = Some (atom_index a, atom_index b).
Proof.
  intros ranges.
  split; [unfold _extract_coords; simpl; by rewrite length_fmap|].
  set (keys := merge_sort Z.le (remove_dups (residue_index <$> coords))).
  exists keys.
  assert (∀ k, k ∈ keys ↔ k ∈ residue_index <$> coords) as Hkeys.
  { intros k. unfold keys.
    by rewrite merge_sort_Permutation, elem_of_remove_dups. }
  assert (Forall (λ k, is_Some (first_last coords k)) keys) as Htotal.
  { apply Forall_forall. intros k Hk. by apply first_last_is_Some, Hkeys. }
  split_and!.
  - apply StronglySorted_merge_sort; [intros ???; lia|intros ??; lia].
  - unfold keys. rewrite merge_sort_Permutation. apply NoDup_remove_dups.
  - intros k. rewrite Hkeys, list_elem_of_fmap. split.
    + intros (a & -> & Ha). by exists a.
    + intros (a & Ha & <-). by exists a.
  - unfold ranges, _extract_coords. simpl. by apply omap_total_length.
  - intros n k Hn. unfold ranges, _extract_coords. simpl. fold keys.
    rewrite (omap_total_lookup _ _ _ Htotal), Hn. simpl.
    pose proof (proj1 (Forall_lookup _ _) Htotal _ _ Hn) as [r Hr].
    unfold first_last in Hr |- *.
    destruct (head _) as [a|]; [|done]. destruct (last _) as [b|]; [|done].
    eauto.
Qed.

(** ** Identifiers and rows *)

Lemma last_index_is_Some (x : pyval) (l : list pyval) :
  is_Some (last_index x l) ↔ x ∈ l.
Proof.
  split.
  - intros [k Hk]. apply last_index_spec in Hk as [Hk _].
    by eapply list_elem_of_lookup_2.
  - intros Hx. destruct (last_index x l) eqn:E; [eauto|].
    apply list_elem_of_lookup in Hx as [n Hn].
    by apply (last_index_None x l E) in Hn.
Qed.

(** X7: when the identifiers of a table are pairwise distinct, the
    identifier map the constructor builds sends an identifier to [k]
    exactly when it stands in row [k]. *)
Theorem X7_unique_ids_index_their_rows (ids : list pyval) :
  NoDup ids →
  ∀ x (k : nat), id_map ids !! x = Some k ↔ ids !! k = Some x.
Proof.
  intros Hnodup x k. rewrite id_map_last, last_index_spec. split.
  - by intros [? _].
  - intros Hk. split; [done|]. intros k' Hlt Hk'.
    pose proof (NoDup_lookup _ _ _ _ Hnodup Hk Hk'). lia.
Qed.

(** X7 on the identifiers of the two-residue chain. *)
Lemma X7_witness :
  NoDup [PStr "A"; PStr "B"] ∧
  ∀ x (k : nat),
    id_map [PStr "A"; PStr "B"] !! x = Some k ↔
    [PStr "A"; PStr "B"] !! k = Some x.
Proof.
  assert (NoDup [PStr "A"; PStr "B"]) as H
    by (apply (bool_decide_unpack _); vm_compute; reflexivity).
  split; [exact H|].
  exact (X7_unique_ids_index_their_rows [PStr "A"; PStr "B"] H).
Defined.

(** X8: [dist] with [raise_na=True] raises [KeyError] exactly when the
    string form of one of the two identifiers is missing, as a string,
    from the [id] column of its axis; an integer in the [id] column
    matches no lookup. *)
Theorem X8_key_error_iff_not_a_string_id (residues_i residues_j : DataFrame)
    (dist_matrix : matrix) (symmetric : bool) (self : t) :
  __init__ residues_i residues_j dist_matrix symmetric = Ok self →
  ∃ ids_i ids_j,
    column residues_i "id" = Some ids_i ∧ column residues_j "id" = Some ids_j ∧
    ∀ i j : pyval,
      (∃ msg, dist self i j true = Raise (KeyError msg)) ↔
      PStr (str i) ∉ ids_i ∨ PStr (str j) ∉ ids_j.
Proof.
  intros Hinit. apply init_Ok in Hinit as (ids_i & ids_j & Hi & Hj & ->).
  exists ids_i, ids_j. split_and!; [done..|]. intros i j.
  assert (∀ ids x, id_map ids !! x = None ↔ x ∉ ids) as Hnone.
  { intros ids x. rewrite id_map_last, <- last_index_is_Some.
    by rewrite eq_None_not_Some. }
  destruct (id_map ids_i !! PStr (str i)) as [ki|] eqn:Ei.
  - destruct (id_map ids_j !! PStr (str j)) as [kj|] eqn:Ej.
    + assert (PStr (str i) ∈ ids_i) as Hin_i.
      { apply last_index_is_Some. rewrite <- id_map_last, Ei. eauto. }
      assert (PStr (str j) ∈ ids_j) as Hin_j.
      { apply last_index_is_Some. rewrite <- id_map_last, Ej. eauto. }
      rewrite !(dist_present _ i j ki kj) by done. simpl.
      split; [|tauto]. intros [msg Hmsg]. unfold mget in Hmsg.
      by repeat case_match.
    + apply Hnone in Ej as Hj'.
      destruct (dist_missing
                  (mk residues_i residues_j dist_matrix symmetric
                      (id_map ids_i) (id_map ids_j)) i j) as [Hk Hn];
        [by right|]. tauto.
  - apply Hnone in Ei as Hi'.
    destruct (dist_missing
                (mk residues_i residues_j dist_matrix symmetric
                    (id_map ids_i) (id_map ids_j)) i j) as [Hk Hn];
      [by left|]. tauto.
Qed.

(** X8 on the map with a repeated identifier. *)
Lemma X8_witness :
  ∃ ids_i ids_j,
    column duplicated_residues "id" = Some ids_i ∧
    column duplicated_residues "id" = Some ids_j ∧
    ∀ i j : pyval,
      (∃ msg,
         dist (mk duplicated_residues duplicated_residues duplicated_matrix
                 true
                 (id_map [PStr "7"; PStr "8"; PStr "7"])
                 (id_map [PStr "7"; PStr "8"; PStr "7"]))
           i j true = Raise (KeyError msg)) ↔
      PStr (str i) ∉ ids_i ∨ PStr (str j) ∉ ids_j.
Proof.
  apply (X8_key_error_iff_not_a_string_id duplicated_residues
           duplicated_residues duplicated_matrix true).
  reflexivity.
Defined.

(** X9: a lookup in a map computed from two chains: when [str(a)] is
    last found in row [k_a] of the first chain's identifiers and [str(b)]
    in row [k_b] of the second's, [dist(a, b)] returns the least of
    1,000,000 and the distances between the atoms of the [k_a]-th residue
    group of the first chain and those of the [k_b]-th of the second. *)
Theorem X9_lookup_after_from_coords (chain_i chain_j : Chain) (self : t)
    (a b : pyval) (k_a k_b : nat) ids_i ids_j range_i range_j :
  well_formed chain_i → well_formed chain_j →
  from_coords chain_i (Some chain_j) = Ok self →
  column (chain_residues chain_i) "id" = Some ids_i →
  column (chain_residues chain_j) "id" = Some ids_j →
  last_index (PStr (str a)) ids_i = Some k_a →
  last_index (PStr (str b)) ids_j = Some k_b →
  (_extract_coords (chain_coords chain_i)).1 !! k_a = Some range_i →
  (_extract_coords (chain_coords chain_j)).1 !! k_b = Some range_j →
  ∃ v, dist self a b true = Ok v ∧
       is_least v
         (LARGE_DIST ::
          pair_dists (_extract_coords (chain_coords chain_i)).2
                     (_extract_coords (chain_coords chain_j)).2
                     range_i range_j).
Proof.
  intros [Hpos_i _] [Hpos_j _] Hself Hids_i Hids_j Ha Hb Hri Hrj.
  apply from_coords_asymmetric in Hself
    as (ids_i' & ids_j' & Hi' & Hj' & HD & Hself).
  rewrite Hids_i in Hi'. injection Hi' as <-.
  rewrite Hids_j in Hj'. injection Hj' as <-.
  pose proof (extract_in_bounds _ Hpos_i) as Hb_i.
  pose proof (extract_in_bounds _ Hpos_j) as Hb_j.
  destruct (distances_entries _ _ _ _ false Hb_i Hb_j) as (D & HD' & Hget);
    [done|].
  rewrite HD in HD'. injection HD' as <-.
  eexists. split.
  - rewrite (dist_present self a b k_a k_b).
    + rewrite Hget. apply lookup_lt_Some in Hri as ?.
      apply lookup_lt_Some in Hrj as ?. rewrite decide_True by done.
      unfold entry. simpl.
      by rewrite (list_lookup_total_correct _ _ _ Hri),
                 (list_lookup_total_correct _ _ _ Hrj).
    + rewrite Hself. simpl. by rewrite id_map_last.
    + rewrite Hself. simpl. by rewrite id_map_last.
  - apply min_atom_dist_least.
Qed.

(** X9 on the two one-atom chains. *)
Lemma X9_witness :
  ∃ v, dist pair_map_value (PStr "X") (PStr "Y") true = Ok v ∧
       is_least v
         (LARGE_DIST ::
          pair_dists (_extract_coords (chain_coords chain_origin)).2
                     (_extract_coords (chain_coords chain_above)).2
                     (0, 0) (0, 0)).
Proof.
  apply (X9_lookup_after_from_coords chain_origin chain_above pair_map_value
           (PStr "X") (PStr "Y") 0 0 [PStr "X"] [PStr "Y"] (0, 0) (0, 0)).
  - split; [reflexivity|by eexists].
  - split; [reflexivity|by eexists].
  - vm_compute. reflexivity.
  - reflexivity.
  - reflexivity.
  - reflexivity.
  - reflexivity.
  - reflexivity.
  - reflexivity.
Defined.

(** ** Files written and read back *)

Lemma append_inj (f a b : string) : f +:+ a = f +:+ b → a = b.
Proof. induction f as [|c f IH]; simpl; [done|]. intros [= H]. auto. Qed.

Lemma csv_npy_ne (f : string) : f +:+ ".csv" ≠ f +:+ ".npy".
Proof. intros H. by apply append_inj in H. Qed.

Lemma result_mapM_names {A : Type} (g : nat → string → result A)
    (l : list (nat * string)) (cols : list (string * A)) :
  result_mapM (λ '(p, n), vals ← g p n; mret (n, vals)) l = Ok cols →
  cols.*1 = l.*2.
Proof.
  revert cols. induction l as [|[p n] l IH]; intros cols; simpl.
  - by intros [= <-].
  - intros H. apply bind_Ok in H as ([n' vals] & H1 & H).
    apply bind_Ok in H1 as (vals' & _ & [= <- <-]).
    apply bind_Ok in H as (cols' & H2 & [= <-]). simpl. f_equal. by apply IH.
Qed.

Lemma imap_pair_snd {A : Type} (l : list A) (k : nat) :
  (imap (λ p n, (k + p, n)%nat) l).*2 = l.
Proof.
  revert k. induction l as [|x l IH]; intros k; [done|].
  rewrite imap_cons. simpl. f_equal.
  rewrite <- (IH (S k)) at 2. f_equal. apply imap_ext. intros; simpl.
  f_equal. lia.
Qed.

(** The column names read from a csv file are those of its header. *)
Lemma read_csv_names fs name types header rows df :
  fs !! name = Some (CsvFile header rows) →
  read_csv fs name types = Ok df → column_names df = tail header.
Proof.
  unfold read_csv. intros ->. intros H.
  apply bind_Ok in H as (cols & Hcols & [= <-]).
  apply result_mapM_names in Hcols. unfold column_names. simpl.
  rewrite Hcols. apply (imap_pair_snd _ 0).
Qed.

Lemma set_column_names df name v : name ∈ column_names (set_column df name v).
Proof.
  unfold set_column. case_decide as Hin.
  - unfold column_names in *. simpl. rewrite <- list_fmap_compose.
    apply list_elem_of_fmap in Hin as ([n vals] & -> & Hc).
    apply list_elem_of_fmap. exists (n, vals). split; [|done].
    simpl. by rewrite decide_True.
  - unfold column_names. simpl. rewrite fmap_app. apply elem_of_app. right.
    by apply list_elem_of_singleton.
Qed.

Lemma append_names a b n : n ∈ column_names a → n ∈ column_names (append a b).
Proof.
  intros Hn. unfold append, column_names at 1. simpl.
  rewrite <- list_fmap_compose. simpl.
  apply list_elem_of_fmap. exists n. split; [done|].
  apply elem_of_app. by left.
Qed.

Lemma to_csv_header df : ∃ rows, to_csv df = CsvFile ("" :: column_names df) rows.
Proof. unfold to_csv. eauto. Qed.

(** X10: whenever a map written by [to_file] is read back, the matrix
    read is the matrix written; the map read is symmetric exactly when the
    written one was symmetric and its residue table had no column named
    [axis]; and a map read as symmetric has one table for both axes. *)
Theorem X10_reload_matrix_and_flag (self reloaded : t) (fs : gmap string file)
    (filename : string) :
  from_file (to_file self fs filename) filename = Ok reloaded →
  dist_matrix reloaded = dist_matrix self ∧
  (symmetric reloaded = true ↔
   symmetric self = true ∧ "axis" ∉ column_names (residues_i self)) ∧
  (symmetric reloaded = true → residues_j reloaded = residues_i reloaded).
Proof.
  intros Hload. split; [by eapply roundtrip_matrix|].
  unfold from_file in Hload.
  apply bind_Ok in Hload as (residues & Hcsv & Hload).
  apply bind_Ok in Hload as (D & _ & Hinit).
  set (written := if symmetric self then residues_i self
                  else append (_add_axis (residues_i self) "i")
                              (_add_axis (residues_j self) "j")) in *.
  assert (column_names residues = column_names written) as Hnames.
  { destruct (to_csv_header written) as [rows Hrows].
    eapply (read_csv_names _ _ _ ("" :: column_names written) rows) in Hcsv;
      [exact Hcsv|].
    unfold to_file. fold written.
    rewrite lookup_insert_ne
      by (intros H; symmetry in H; by apply csv_npy_ne in H).
    by rewrite lookup_insert_eq, Hrows. }
  destruct (decide ("axis" ∈ column_names residues)) as [Hax|Hax];
    apply init_Ok in Hinit as (? & ? & _ & _ & ->); simpl.
  - split; [|done]. split; [done|]. intros [Hsym Hno]. exfalso.
    rewrite Hnames in Hax. unfold written in Hax. by rewrite Hsym in Hax.
  - split; [|done]. split; [|done]. intros _. rewrite Hnames in Hax.
    unfold written in Hax. destruct (symmetric self); [done|].
    exfalso. apply Hax, append_names, set_column_names.
Qed.

(** X10 on the map with numbered residues. *)
Lemma X10_witness :
  dist_matrix reloaded_map = dist_matrix numbered_map ∧
  (symmetric reloaded_map = true ↔
   symmetric numbered_map = true
   ∧ "axis" ∉ column_names (residues_i numbered_map)) ∧
  (symmetric reloaded_map = true →
   residues_j reloaded_map = residues_i reloaded_map).
Proof.
  apply (X10_reload_matrix_and_flag numbered_map reloaded_map ∅ "map").
  vm_compute. reflexivity.
Defined.

(** *** Reading back what [to_csv] wrote *)

Lemma imap_first_cells (f : nat → pyval → list string) (l : list pyval) :
  (∀ k v, f k v !! 0%nat = Some (to_text v)) →
  (λ row, default "" (row !! 0%nat)) <$> imap f l = to_text <$> l.
Proof.
  revert f. induction l as [|v l IH]; intros f Hf; [done|].
  rewrite imap_cons. simpl. rewrite Hf. simpl. f_equal. apply IH.
  intros k v'. apply Hf.
Qed.

Lemma to_csv_cells_index df rows :
  to_csv df = CsvFile ("" :: column_names df) rows →
  (λ row, default "" (row !! 0%nat)) <$> rows = to_text <$> df_index df.
Proof. unfold to_csv. intros [= <-]. by apply imap_first_cells. Qed.

Lemma to_csv_cells_column df rows (p : nat) c :
  well_shaped df →
  to_csv df = CsvFile ("" :: column_names df) rows →
  df_columns df !! p = Some c →
  (λ row, default "" (row !! S p)) <$> rows = to_text <$> c.2.
Proof.
  unfold to_csv. intros Hshape [= <-] Hc.
  pose proof (proj1 (Forall_lookup _ _) Hshape _ _ Hc) as Hlen. simpl in Hlen.
  apply list_eq. intros k. rewrite !list_lookup_fmap, list_lookup_imap.
  destruct (df_index df !! k) as [label|] eqn:Ek; simpl.
  - rewrite list_lookup_fmap, Hc. simpl.
    destruct (lookup_lt_is_Some_2 c.2 k) as [v Hv].
    { rewrite Hlen. by eapply lookup_lt_Some. }
    by rewrite Hv.
  - apply lookup_ge_None in Ek.
    by rewrite (proj2 (lookup_ge_None c.2 k)) by lia.
Qed.

Lemma result_mapM_columns (g : nat → string → result (list pyval))
    (cols : list (string * list pyval)) (k : nat) :
  (∀ p c, cols !! p = Some c → g (k + p)%nat c.1 = Ok c.2) →
  result_mapM (λ '(p, n), vals ← g p n; mret (n, vals))
    (imap (λ p n, (k + p, n)%nat) cols.*1) = Ok cols.
Proof.
  revert k. induction cols as [|[n vals] cols IH]; intros k Hg; [done|].
  rewrite fmap_cons, imap_cons. simpl.
  pose proof (Hg 0%nat (n, vals) eq_refl) as H0. simpl in H0.
  rewrite H0. simpl.
  rewrite (imap_ext _ (λ p n, (S k + p, n)%nat))
    by (intros; simpl; f_equal; lia).
  rewrite IH; [done|]. intros p c Hc.
  replace (S k + p)%nat with (k + S p)%nat by lia. by apply Hg.
Qed.

(** A table is read back whole when its labels and each of its columns
    are. *)
Lemma csv_stable_columns (df : DataFrame) :
  well_shaped df →
  infer_column (to_text <$> df_index df) = df_index df →
  Forall (survives csv_types) (df_columns df) →
  csv_stable df.
Proof.
  intros Hshape Hindex Hcols fs name Hfile. unfold read_csv. rewrite Hfile.
  destruct (to_csv_header df) as [rows Hrows]. rewrite Hrows. simpl.
  rewrite (result_mapM_columns _ (df_columns df) 0).
  - simpl. rewrite (to_csv_cells_index df rows Hrows), Hindex.
    by destruct df.
  - intros p c Hc. simpl.
    rewrite (to_csv_cells_column df rows p c Hshape Hrows Hc).
    exact (proj1 (Forall_lookup _ _) Hcols _ _ Hc).
Qed.

(** X11: a symmetric map whose residue table has no [axis] column and
    is read back by [read_csv] as [to_csv] writes it, is read back by
    [from_file] as [to_file] wrote it. *)
Theorem X11_symmetric_map_round_trip (residues : DataFrame) (D : matrix)
    (self : t) (fs : gmap string file) (filename : string) :
  __init__ residues residues D true = Ok self →
  csv_stable residues → "axis" ∉ column_names residues →
  from_file (to_file self fs filename) filename = Ok self.
Proof.
  intros Hinit Hstable Hax.
  apply init_Ok in Hinit as Hself. destruct Hself as (ids & ? & Hids & _ & ->).
  unfold from_file, to_file. simpl.
  rewrite (Hstable _ (filename +:+ ".csv")).
  - simpl. unfold np_load. rewrite lookup_insert_eq. simpl.
    rewrite decide_False by done. simpl. exact Hinit.
  - rewrite lookup_insert_ne by (intros H; symmetry in H; by apply csv_npy_ne in H).
    by rewrite lookup_insert_eq.
Qed.

(** X11 on the map of the two-residue chain. *)
Lemma X11_witness :
  from_file (to_file scenario_map_value ∅ "map") "map" = Ok scenario_map_value.
Proof.
  apply (X11_symmetric_map_round_trip scenario_residues
           [[0; 2]; [2; 0]]%float scenario_map_value ∅ "map").
  - reflexivity.
  - apply csv_stable_columns.
    + repeat (constructor; [reflexivity|]). constructor.
    + reflexivity.
    + repeat (constructor; [reflexivity|]). constructor.
  - apply (bool_decide_unpack _). vm_compute. reflexivity.
Defined.

(** *** Which columns survive *)











(** *** The two tables of an asymmetric map *)

Lemma assoc_nodup {A : Type} (l : list (string * A)) (p : nat) n v :
  NoDup l.*1 → l !! p = Some (n, v) → assoc n l = Some v.
Proof.
  revert p. induction l as [|[n0 v0] l IH]; intros p Hnd Hp; [done|].
  apply NoDup_cons in Hnd as [Hn0 Hnd]. simpl.
  destruct p as [|p]; simpl in Hp.
  - injection Hp as -> ->. by rewrite decide_True.
  - rewrite decide_False; [by eapply IH|]. intros ->. apply Hn0.
    apply list_elem_of_fmap. exists (n, v). split; [done|].
    by eapply list_elem_of_lookup_2.
Qed.

Lemma assoc_app_l {A : Type} (l k : list (string * A)) n :
  n ∈ l.*1 → assoc n (l ++ k) = assoc n l.
Proof.
  induction l as [|[n0 v0] l IH]; simpl; [by intros ?%elem_of_nil|].
  intros Hn. case_decide; [done|]. apply IH.
  apply elem_of_cons in Hn as [->|Hn]; done.
Qed.

Lemma assoc_app_r {A : Type} (l k : list (string * A)) n :
  n ∉ l.*1 → assoc n (l ++ k) = assoc n k.
Proof.
  induction l as [|[n0 v0] l IH]; simpl; [done|].
  intros Hn. rewrite decide_False.
  - apply IH. intros H. apply Hn. by right.
  - intros ->. apply Hn. by left.
Qed.

Lemma select_app {A : Type} (b : bool) (n : nat) (mask : list bool)
    (l k : list A) :
  length l = n →
  select (replicate n b ++ mask) (l ++ k)
  = (if b then l else []) ++ select mask k.
Proof.
  revert l. induction n as [|n IH]; intros [|a l] Hlen; try done.
  - by destruct b.
  - simpl. rewrite IH by (simpl in Hlen; lia). by destruct b.
Qed.

Lemma select_replicate {A : Type} (b : bool) (n : nat) (l : list A) :
  length l = n → select (replicate n b) l = if b then l else [].
Proof.
  intros Hlen.
  rewrite <- (app_nil_r (replicate n b)), <- (app_nil_r l) at 1.
  rewrite select_app by done. rewrite app_nil_r. by destruct b.
Qed.

Lemma DataFrame_eq (a b : DataFrame) :
  df_index a = df_index b → df_columns a = df_columns b → a = b.
Proof. destruct a, b. simpl. by intros -> ->. Qed.

Section Stacked.

Variables residues_i residues_j : DataFrame.
Hypothesis same_names : column_names residues_j = column_names residues_i.
Hypothesis nodup_names : NoDup (column_names residues_i).
Hypothesis no_axis : "axis" ∉ column_names residues_i.
Hypothesis shaped_i : well_shaped residues_i.
Hypothesis shaped_j : well_shaped residues_j.

Lemma same_length : length (df_columns residues_j) = length (df_columns residues_i).
Proof.
  unfold column_names in same_names.
  by rewrite <- (length_fmap fst), same_names, length_fmap.
Qed.

Lemma columns_paired (p : nat) ci :
  df_columns residues_i !! p = Some ci →
  ∃ cj, df_columns residues_j !! p = Some cj ∧ cj.1 = ci.1 ∧
        length ci.2 = length (df_index residues_i) ∧
        length cj.2 = length (df_index residues_j).
Proof.
  intros Hci.
  destruct (lookup_lt_is_Some_2 (df_columns residues_j) p) as [cj Hcj].
  { rewrite same_length. by eapply lookup_lt_Some. }
  exists cj. split_and!; [done| |..].
  - assert ((df_columns residues_j).*1 !! p = (df_columns residues_i).*1 !! p)
      as H by exact (f_equal (λ l, l !! p) same_names).
    rewrite !list_lookup_fmap, Hci, Hcj in H. by injection H.
  - exact (proj1 (Forall_lookup _ _) shaped_i _ _ Hci).
  - exact (proj1 (Forall_lookup _ _) shaped_j _ _ Hcj).
Qed.

Lemma add_axis_columns (df : DataFrame) (axis : string) :
  "axis" ∉ column_names df →
  _add_axis df axis
  = mkDataFrame (df_index df)
      (df_columns df ++ [("axis", replicate (length (df_index df)) (PStr axis))]).
Proof. intros H. unfold _add_axis, set_column. by rewrite decide_False. Qed.

Lemma append_stacked :
  append (_add_axis residues_i "i") (_add_axis residues_j "j")
  = stacked residues_i residues_j.
Proof.
  rewrite !add_axis_columns by (by rewrite ?same_names).
  unfold append, stacked, column_names, column. simpl. f_equal.
  rewrite !fmap_app. fold (column_names residues_i) (column_names residues_j).
  rewrite same_names. simpl.
  rewrite (filter_none _ (column_names residues_i ++ ["axis"]));
    [|apply Forall_forall; intros n Hn; by intros []].
  simpl. rewrite app_nil_r. f_equal.
  - apply list_eq. intros p. unfold column_names.
    rewrite list_lookup_fmap, list_lookup_fmap, lookup_zip_with.
    destruct (df_columns residues_i !! p) as [ci|] eqn:Hci; simpl; [|done].
    destruct (columns_paired p ci Hci) as (cj & Hcj & Hname & _ & _).
    rewrite Hcj. simpl. f_equal. f_equal.
    assert (ci.1 ∈ (df_columns residues_i).*1) as Hin_i.
    { apply list_elem_of_fmap. exists ci. split; [done|].
      by eapply list_elem_of_lookup_2. }
    assert (ci.1 ∈ (df_columns residues_j).*1) as Hin_j.
    { fold (column_names residues_j). by rewrite same_names. }
    rewrite !assoc_app_l by done.
    rewrite (assoc_nodup (df_columns residues_i) p ci.1 ci.2);
      [|done|by destruct ci].
    rewrite (assoc_nodup (df_columns residues_j) p ci.1 cj.2);
      [done| |by destruct cj; simpl in *; subst].
    fold (column_names residues_j). by rewrite same_names.
  - rewrite (assoc_app_r (df_columns residues_i)) by done.
    rewrite (assoc_app_r (df_columns residues_j))
      by (fold (column_names residues_j); by rewrite same_names).
    done.
Qed.

Lemma stacked_axis :
  column (stacked residues_i residues_j) "axis"
  = Some (replicate (length (df_index residues_i)) (PStr "i")
          ++ replicate (length (df_index residues_j)) (PStr "j")).
Proof.
  unfold column, stacked. simpl. rewrite assoc_app_r.
  - done.
  - intros H. apply list_elem_of_fmap in H as ([n v] & Hn & Hc).
    apply elem_of_lookup_zip_with in Hc as (p & ci & cj & [= -> ->] & Hci & _).
    apply no_axis. apply list_elem_of_fmap. exists ci. split; [done|].
    by eapply list_elem_of_lookup_2.
Qed.

Lemma stacked_names :
  column_names (stacked residues_i residues_j)
  = column_names residues_i ++ ["axis"].
Proof.
  unfold column_names, stacked. simpl. rewrite fmap_app. simpl. f_equal.
  apply list_eq. intros p. rewrite !list_lookup_fmap, lookup_zip_with.
  destruct (df_columns residues_i !! p) as [ci|] eqn:Hci; simpl; [|done].
  destruct (columns_paired p ci Hci) as (cj & -> & _). done.
Qed.

Lemma unstack_i :
  drop_column (query_eq (stacked residues_i residues_j) "axis" (PStr "i")) "axis"
  = residues_i.
Proof.
  unfold query_eq. rewrite stacked_axis. simpl.
  rewrite fmap_app, !fmap_replicate. simpl.
  unfold drop_column, stacked. simpl.
  rewrite select_app by done. rewrite select_replicate by done.
  rewrite app_nil_r. apply DataFrame_eq; simpl; [done|].
  rewrite fmap_app, filter_app. simpl. rewrite filter_cons, decide_False by auto.
  rewrite filter_nil, app_nil_r.
  rewrite filter_all.
  - apply list_eq. intros p. rewrite list_lookup_fmap, lookup_zip_with.
    destruct (df_columns residues_i !! p) as [ci|] eqn:Hci; simpl; [|done].
    destruct (columns_paired p ci Hci) as (cj & -> & _ & Hli & Hlj). simpl.
    rewrite select_app by done. rewrite select_replicate by done.
    rewrite app_nil_r. by destruct ci.
  - apply Forall_fmap, Forall_forall. intros [n v] Hc. simpl.
    apply elem_of_lookup_zip_with in Hc as (p & ci & cj & [= -> ->] & Hci & _).
    intros Heq. apply no_axis. rewrite <- Heq. apply list_elem_of_fmap.
    exists ci. split; [done|]. by eapply list_elem_of_lookup_2.
Qed.

Lemma unstack_j :
  drop_column (query_eq (stacked residues_i residues_j) "axis" (PStr "j")) "axis"
  = residues_j.
Proof.
  unfold query_eq. rewrite stacked_axis. simpl.
  rewrite fmap_app, !fmap_replicate. simpl.
  unfold drop_column, stacked. simpl.
  rewrite select_app by done. simpl.
  rewrite select_replicate by done.
  apply DataFrame_eq; simpl; [done|].
  rewrite fmap_app, filter_app. simpl. rewrite filter_cons, decide_False by auto.
  rewrite filter_nil, app_nil_r.
  rewrite filter_all.
  - apply list_eq. intros p. rewrite list_lookup_fmap, lookup_zip_with.
    destruct (df_columns residues_i !! p) as [ci|] eqn:Hci; simpl.
    + destruct (columns_paired p ci Hci) as (cj & Hcj & Hn & Hli & Hlj).
      rewrite Hcj. simpl. rewrite select_app by done. simpl.
      rewrite select_replicate by done. rewrite <- Hn. by destruct cj.
    + apply lookup_ge_None in Hci. symmetry. apply lookup_ge_None.
      by rewrite same_length.
  - apply Forall_fmap, Forall_forall. intros [n v] Hc. simpl.
    apply elem_of_lookup_zip_with in Hc as (p & ci & cj & [= -> ->] & Hci & _).
    intros Heq. apply no_axis. rewrite <- Heq. apply list_elem_of_fmap.
    exists ci. split; [done|]. by eapply list_elem_of_lookup_2.
Qed.

End Stacked.

(** X14: an asymmetric map whose two tables have the same column names,
    without repetition and without [axis], is written as one table, the
    rows of the second below those of the first, with an [axis] column of
    [i] and [j]; when that table is read back as written, [from_file]
    splits it again and returns the map that was written. *)
Theorem X14_asymmetric_map_round_trip (residues_i residues_j : DataFrame)
    (D : matrix) (self : t) (fs : gmap string file) (filename : string) :
  __init__ residues_i residues_j D false = Ok self →
  column_names residues_j = column_names residues_i →
  NoDup (column_names residues_i) →
  "axis" ∉ column_names residues_i →
  well_shaped residues_i → well_shaped residues_j →
  csv_stable (stacked residues_i residues_j) →
  to_file self fs filename !! (filename +:+ ".csv")
    = Some (to_csv (stacked residues_i residues_j)) ∧
  from_file (to_file self fs filename) filename = Ok self.
Proof.
  intros Hinit Hnames Hnodup Hax Hsi Hsj Hstable.
  apply init_Ok in Hinit as Hself. destruct Hself as (? & ? & _ & _ & ->).
  assert (to_file
            (mk residues_i residues_j D false (id_map x) (id_map x0)) fs
            filename !! (filename +:+ ".csv")
          = Some (to_csv (stacked residues_i residues_j))) as Hfile.
  { unfold to_file. simpl. rewrite append_stacked by done.
    rewrite lookup_insert_ne
      by (intros H; symmetry in H; by apply csv_npy_ne in H).
    by rewrite lookup_insert_eq. }
  split; [done|]. unfold from_file.
  rewrite (Hstable _ _ Hfile).
  simpl. unfold to_file, np_load. rewrite lookup_insert_eq. simpl.
  rewrite decide_True.
  - by rewrite unstack_i, unstack_j.
  - rewrite stacked_names by done. apply elem_of_app. right.
    by apply list_elem_of_singleton.
Qed.

(** X14 on the map of the two one-atom chains. *)
Lemma X14_witness :
  to_file pair_map_value ∅ "pair" !! "pair.csv"
    = Some (to_csv (stacked (single_residue "X") (single_residue "Y"))) ∧
  from_file (to_file pair_map_value ∅ "pair") "pair" = Ok pair_map_value.
Proof.
  apply (X14_asymmetric_map_round_trip (single_residue "X")
           (single_residue "Y") [[4]]%float pair_map_value ∅ "pair").
  - reflexivity.
  - reflexivity.
  - apply (bool_decide_unpack _). vm_compute. reflexivity.
  - apply (bool_decide_unpack _). vm_compute. reflexivity.
  - repeat (constructor; [reflexivity|]). constructor.
  - repeat (constructor; [reflexivity|]). constructor.
  - apply csv_stable_columns.
    + repeat (constructor; [reflexivity|]). constructor.
    + reflexivity.
    + repeat (constructor; [reflexivity|]). constructor.
Defined.

(** *** Identifiers after a reload *)




